(** * splatpack: a shallow embedding of [splatpack/cli.py]

    The command-line tool finds [.dng] frames under a dataset directory,
    groups them by parent folder, exports each one through [darktable-cli]
    and bundles the results (images, manifest, job metadata, optional zip).

    Conventions of the embedding.
    - A Python [str] is a [list ascii]; a character stands for the code
      point of the same number, so the strings covered are those over
      U+0000..U+00FF.  [isspace], [isalnum] and [lower] are Python's tables
      on that range.
    - A [pathlib.Path] is an absolute POSIX path, kept as the list of its
      components below the root (the tool resolves the dataset directory
      before it does anything else).
    - The outside world (file tree, PATH, clock, converter) is a record of
      oracles, [Env].  Code with effects runs in a small writer/exception
      monad whose log is the ordered list of interactions with the world. *)

From Stdlib Require Import Strings.Ascii Strings.String Strings.Byte.
From Stdlib Require Decimal DecimalString DecimalNat.
From Stdlib Require Import Bool Arith ZArith Lia.
From Stdlib Require Import List Sorted Permutation.
Import ListNotations.

Set Implicit Arguments.

(** ** Python strings *)

Definition str := list ascii.

(** A literal: [py "abc"] is the Python string ['abc']. *)
Definition py (s : string) : str := list_ascii_of_string s.

Definition chr (n : nat) : ascii := ascii_of_nat n.
Definition ord (c : ascii) : nat := nat_of_ascii c.

Definition in_range (lo hi : nat) (c : ascii) : bool :=
  (lo <=? ord c) && (ord c <=? hi).

(** [str.isspace] on one character. *)
Definition isspace (c : ascii) : bool :=
  in_range 9 13 c || in_range 28 32 c || (ord c =? 133) || (ord c =? 160).

(** [str.isalnum] on one character. *)
Definition isalnum (c : ascii) : bool :=
  in_range 48 57 c || in_range 65 90 c || in_range 97 122 c
  || (ord c =? 170) || in_range 178 179 c || (ord c =? 181)
  || in_range 185 186 c || in_range 188 190 c
  || in_range 192 214 c || in_range 216 246 c || in_range 248 255 c.

(** [str.lower] on one character. *)
Definition lower_char (c : ascii) : ascii :=
  if in_range 65 90 c || in_range 192 214 c || in_range 216 222 c
  then chr (ord c + 32) else c.

Definition lower (s : str) : str := map lower_char s.

Definition str_eqb (a b : str) : bool :=
  if list_eq_dec ascii_dec a b then true else false.

(** [s.lstrip()], [s.rstrip()], [s.strip()] with no argument. *)
Fixpoint lstrip (s : str) : str :=
  match s with
  | c :: rest => if isspace c then lstrip rest else s
  | [] => []
  end.

Definition rstrip (s : str) : str := rev (lstrip (rev s)).

Definition strip (s : str) : str := rstrip (lstrip s).

(** ** safe_name *)

Definition space : ascii := " "%char.
Definition underscore : ascii := "_"%char.
Definition dot : ascii := "."%char.

(** The test [ch.isalnum() or ch in ("_", ".", " ")]. *)
Definition allowed (ch : ascii) : bool :=
  isalnum ch || Ascii.eqb ch underscore || Ascii.eqb ch dot || Ascii.eqb ch space.

(** One turn of the [for ch in text] loop. *)
Definition sanitize_char (ch : ascii) : ascii :=
  if allowed ch then ch else underscore.

(** ["  " in safe] *)
Fixpoint has_double_space (s : str) : bool :=
  match s with
  | a :: rest =>
      match rest with
      | b :: _ => (Ascii.eqb a space && Ascii.eqb b space) || has_double_space rest
      | [] => false
      end
  | [] => false
  end.

(** [safe.replace("  ", " ")]: non-overlapping occurrences, left to right. *)
Fixpoint replace_double_space (s : str) : str :=
  match s with
  | a :: rest =>
      match rest with
      | b :: rest' =>
          if Ascii.eqb a space && Ascii.eqb b space
          then space :: replace_double_space rest'
          else a :: replace_double_space rest
      | [] => [a]
      end
  | [] => []
  end.

(** The loop [while "  " in safe: safe = safe.replace("  ", " ")].  Every
    turn shortens the string, so [length safe] turns are always enough
    (see [collapse_loop_settles]). *)
Fixpoint collapse_loop (fuel : nat) (safe : str) : str :=
  match fuel with
  | O => safe
  | S fuel' =>
      if has_double_space safe
      then collapse_loop fuel' (replace_double_space safe)
      else safe
  end.

Definition collapse_spaces (safe : str) : str :=
  collapse_loop (length safe) safe.

Definition safe_name (text : str) : str :=
  let text := strip text in
  match text with
  | [] => py "dataset"
  | _ =>
      let out := map sanitize_char text in
      let safe := strip out in
      collapse_spaces safe
  end.

(** ** Numbers in f-strings *)

(** [str(n)] for a non-negative integer. *)
Definition str_of_nat (n : nat) : str :=
  py (DecimalString.NilEmpty.string_of_uint (Nat.to_uint n)).

(** [str(z)] for any integer. *)
Definition str_of_Z (z : Z) : str :=
  py (DecimalString.NilEmpty.string_of_int (Z.to_int z)).

(** [format(n, "06d")]: at least six digits, zeros on the left. *)
Definition fmt06 (n : nat) : str :=
  let d := str_of_nat n in
  repeat "0"%char (6 - length d) ++ d.

(** ** Order on strings and paths *)

Section Lex.
Variable A : Type.
Variable cmp : A -> A -> comparison.

(** Python's comparison of two sequences, element by element. *)
Fixpoint lex_compare (a b : list A) : comparison :=
  match a, b with
  | [], [] => Eq
  | [], _ :: _ => Lt
  | _ :: _, [] => Gt
  | x :: a', y :: b' =>
      match cmp x y with
      | Eq => lex_compare a' b'
      | c => c
      end
  end.
End Lex.

Definition is_lt (c : comparison) : bool :=
  match c with Lt => true | _ => false end.

Definition char_compare (c d : ascii) : comparison := Nat.compare (ord c) (ord d).

(** [a < b] on [str]: by code point. *)
Definition str_compare : str -> str -> comparison := lex_compare char_compare.
Definition str_lt (a b : str) : bool := is_lt (str_compare a b).

(** ** pathlib *)

(** An absolute POSIX path: the components after the root ["/"]. *)
Definition Path := list str.

Definition slash : ascii := "/"%char.

(** [str(p)] *)
Definition path_str (p : Path) : str :=
  match p with
  | [] => [slash]
  | _ => flat_map (fun c => slash :: c) p
  end.

(** [p.parent]; the root is its own parent. *)
Definition parent (p : Path) : Path := removelast p.

(** [p.name]; empty for the root. *)
Definition name (p : Path) : str := last p [].

(** [s.rfind(c)], [None] standing for -1. *)
Fixpoint rfind (c : ascii) (s : str) : option nat :=
  match s with
  | [] => None
  | x :: rest =>
      match rfind c rest with
      | Some i => Some (S i)
      | None => if Ascii.eqb x c then Some 0 else None
      end
  end.

(** The suffix of a file name: [name[i:]] when [0 < i < len(name) - 1]
    for [i = name.rfind(".")], else the empty string (pathlib up to
    Python 3.13; a name such as [.dng] has no suffix). *)
Definition name_suffix (nm : str) : str :=
  match rfind dot nm with
  | Some i => if (0 <? i) && (S i <? length nm) then skipn i nm else []
  | None => []
  end.

(** [p.suffix] *)
Definition suffix (p : Path) : str := name_suffix (name p).

(** [s.split(sep)] for a one-character separator. *)
Fixpoint split_on (sep : ascii) (s : str) : list str :=
  match s with
  | [] => [[]]
  | c :: rest =>
      if Ascii.eqb c sep then [] :: split_on sep rest
      else match split_on sep rest with
           | seg :: segs => (c :: seg) :: segs
           | [] => [[c]]
           end
  end.

(** The components pathlib keeps from a string: empty segments and ["."]
    are dropped. *)
Definition parse_parts (s : str) : list str :=
  filter (fun seg => negb (str_eqb seg [] || str_eqb seg [dot]))
         (split_on slash s).

(** [p / s]: an absolute [s] replaces [p], anything else is appended.
    Components [..] are kept as they are.  (A string that starts with
    exactly two slashes names another root in POSIX; that root is outside
    this model.) *)
Definition joinpath (p : Path) (s : str) : Path :=
  match s with
  | c :: _ => if Ascii.eqb c slash then parse_parts s else p ++ parse_parts s
  | [] => p
  end.

(** [Path(s)] for an absolute string [s]. *)
Definition path_of_str (s : str) : Path := parse_parts s.

(** Path objects compare by their component sequences. *)
Definition path_compare : Path -> Path -> comparison := lex_compare str_compare.
Definition path_lt (p q : Path) : bool := is_lt (path_compare p q).

Definition path_eqb (p q : Path) : bool :=
  if list_eq_dec (list_eq_dec ascii_dec) p q then true else false.

(** ** list.sort and sorted *)

Section Sorting.
Variable A : Type.
Variable lt : A -> A -> bool.

(** [x] goes in front of the first element that is not below it, so
    equal elements keep their original order (the sort is stable). *)
Fixpoint insert_sorted (x : A) (l : list A) : list A :=
  match l with
  | [] => [x]
  | y :: l' => if lt y x then y :: insert_sorted x l' else x :: l
  end.

(** [l.sort()] / [sorted(l)] for a list compared with [lt]. *)
Definition list_sort (l : list A) : list A := fold_right insert_sorted [] l.
End Sorting.

(** [sorted(l, key=key)] *)
Definition sorted_by_key (A K : Type) (lt : K -> K -> bool) (key : A -> K)
  : list A -> list A :=
  list_sort (fun a b => lt (key a) (key b)).

(** ** The file tree *)

(** What is on disk below the root: a regular file, or a directory with
    its entries in the order the operating system lists them. *)
#[warnings="-register-all"]
Inductive node : Type :=
| File
| Dir (entries : list (str * node)).

Fixpoint find_entry (c : str) (entries : list (str * node)) : option node :=
  match entries with
  | [] => None
  | (n, child) :: rest => if str_eqb n c then Some child else find_entry c rest
  end.

Fixpoint lookup (fs : node) (p : Path) : option node :=
  match p with
  | [] => Some fs
  | c :: rest =>
      match fs with
      | File => None
      | Dir entries =>
          match find_entry c entries with
          | Some child => lookup child rest
          | None => None
          end
      end
  end.

(** [p.exists()], [p.is_dir()], [p.is_file()] *)
Definition path_exists (fs : node) (p : Path) : bool :=
  match lookup fs p with Some _ => true | None => false end.

Definition is_dir (fs : node) (p : Path) : bool :=
  match lookup fs p with Some (Dir _) => true | _ => false end.

Definition is_file (fs : node) (p : Path) : bool :=
  match lookup fs p with Some File => true | _ => false end.

(** Everything below a directory, depth first. *)
Fixpoint walk (prefix : Path) (n : node) : list Path :=
  match n with
  | File => []
  | Dir entries =>
      flat_map (fun e => (prefix ++ [fst e]) :: walk (prefix ++ [fst e]) (snd e))
               entries
  end.

(** [root.rglob("*")]: every entry below [root], files and directories. *)
Definition rglob (fs : node) (root : Path) : list Path :=
  match lookup fs root with
  | Some n => walk root n
  | None => []
  end.

(** ** File discovery and grouping *)

Definition DNG_EXTS : list str := [py ".dng"].

(** The test [p.is_file() and p.suffix.lower() in DNG_EXTS]. *)
Definition is_dng (fs : node) (p : Path) : bool :=
  is_file fs p && existsb (str_eqb (lower (suffix p))) DNG_EXTS.

(** The body of [iter_dngs] once [rglob] has listed the tree. *)
Definition select_dngs (fs : node) (listing : list Path) : list Path :=
  list_sort path_lt (filter (is_dng fs) listing).

Definition iter_dngs (fs : node) (root : Path) : list Path :=
  select_dngs fs (rglob fs root).

(** [groups.setdefault(k, []).append(p)] on a dict kept in insertion
    order. *)
Fixpoint setdefault_append (k p : Path) (groups : list (Path * list Path))
  : list (Path * list Path) :=
  match groups with
  | [] => [(k, [p])]
  | (k', ps) :: rest =>
      if path_eqb k' k then (k', ps ++ [p]) :: rest
      else (k', ps) :: setdefault_append k p rest
  end.

Definition group_by_parent_dir (dngs : list Path) : list (Path * list Path) :=
  let groups := fold_left (fun g p => setdefault_append (parent p) p g) dngs [] in
  let grouped := sorted_by_key str_lt (fun kv => path_str (fst kv)) groups in
  map (fun kv => (fst kv, list_sort path_lt (snd kv))) grouped.

(** ** The outside world and the effect monad *)

(** What [subprocess.run] hands back ([stderr=PIPE], so bytes). *)
Record CompletedProcess : Type := {
  returncode : Z;
  stderr : list byte
}.

Record Env : Type := {
  (** [Path(s).expanduser().resolve()] *)
  resolve_arg : str -> Path;
  (** [p.resolve()] on an absolute path *)
  resolve : Path -> Path;
  (** [Path.home().resolve()], [None] when it raises *)
  home : option Path;
  (** the tree on disk when the run starts *)
  fs : node;
  (** [shutil.which] *)
  which : str -> option str;
  (** [time.strftime("%Y%m%d_%H%M%S")] *)
  strftime : str;
  (** the child process started for a command line *)
  run_process : list str -> CompletedProcess;
  (** [bytes.decode("utf-8", errors="replace")] *)
  decode_utf8 : list byte -> str
}.

(** The metadata record of [job.json]. *)
Record Payload : Type := {
  json_tool : str;
  json_version : str;
  json_dataset_dir : str;
  json_job_dir : str;
  json_images_dir : str;
  json_inputs_found : nat;
  json_outputs_written : nat;
  json_darktable_style : option str;
  json_jpg_quality : Z;
  json_max_long_edge : option Z;
  json_created_at : str;
  json_notes : str
}.

(** One interaction with the world.  [EvWhich] and [EvRglob] only read;
    the others after [EvEprint] change the disk. *)
Inductive Event : Type :=
| EvWhich (tool : str)
| EvRglob (root : Path)
| EvEprint (line : str)
| EvMkdir (p : Path)
| EvRun (cmd : list str)
| EvWriteJson (p : Path) (payload : Payload)
| EvWriteText (p : Path) (data : str)
| EvUnlink (p : Path)
| EvMakeArchive (base_name format root_dir : str).

Inductive Exn : Type :=
| SystemExit (msg : str)
| CalledProcessError (code : Z) (err : list byte)
| ValueError (msg : str).

Inductive Result (A : Type) : Type :=
| Ok (a : A)
| Raise (ex : Exn).

Arguments Ok {A} a.
Arguments Raise {A} ex.

(** A computation: what it did, in order, and how it ended. *)
Definition M (A : Type) : Type := (list Event * Result A)%type.

Definition ret (A : Type) (a : A) : M A := ([], Ok a).

Definition bind (A B : Type) (m : M A) (k : A -> M B) : M B :=
  match m with
  | (t, Ok a) => let (t', r) := k a in (t ++ t', r)
  | (t, Raise ex) => (t, Raise ex)
  end.

Definition tell (ev : Event) : M unit := ([ev], Ok tt).

Definition raise (A : Type) (ex : Exn) : M A := ([], Raise ex).
Arguments raise {A} ex.

(** [try: m except ...: handler] *)
Definition catch (A : Type) (m : M A) (handler : Exn -> M A) : M A :=
  match m with
  | (t, Ok a) => (t, Ok a)
  | (t, Raise ex) => let (t', r) := handler ex in (t ++ t', r)
  end.

(** [if c: body] for a body that returns nothing. *)
Definition when (c : bool) (body : M unit) : M unit :=
  if c then body else ret tt.

Declare Scope py_scope.
Delimit Scope py_scope with py.
Notation "x <- m ;; k" := (bind m (fun x => k))
  (at level 61, m at next level, right associativity) : py_scope.
Notation "m ;; k" := (bind m (fun _ => k))
  (at level 61, right associativity) : py_scope.
Open Scope py_scope.

Definition trace (A : Type) (m : M A) : list Event := fst m.
Definition result (A : Type) (m : M A) : Result A := snd m.

(** ** Constants and small helpers *)

Definition DEFAULT_OUT_DIRNAME : str := py "_splatpack".
Definition DEFAULT_IMAGES_DIRNAME : str := py "images".

Definition nl : str := [chr 10].

Definition eprint (line : str) : M unit := tell (EvEprint line).

(** The converter this tool drives. *)
Definition DARKTABLE_CLI : str := py "darktable-cli".

Definition missing_tool_msg (tool : str) : str :=
  py "Missing required tool: " ++ tool ++ nl ++
  py "Install darktable (for darktable-cli) and ensure it is on PATH." ++ nl ++
  py "macOS: brew install darktable".

Definition which_or_die (e : Env) (tool : str) : M str :=
  tell (EvWhich tool) ;;
  match which e tool with
  | Some (c :: found) => ret (c :: found)
  | _ => raise (SystemExit (missing_tool_msg tool))
  end.

(** The fixed deny-list: [/], [/System], [/Library], [/Applications],
    [/Users]. *)
Definition dangerous : list Path :=
  [ []; [py "System"]; [py "Library"]; [py "Applications"]; [py "Users"] ].

Definition is_dangerous_directory (e : Env) (path : Path) : bool :=
  let p := resolve e path in
  if existsb (path_eqb p) dangerous then true
  else match home e with
       | Some h => if path_eqb p h then true else false
       | None => false
       end.

Definition ensure_dir (path : Path) : M unit := tell (EvMkdir path).

Definition default_job_name (dataset_dir : Path) : str :=
  safe_name (name dataset_dir).

(** ** darktable-cli export *)

Record Args : Type := {
  args_path : str;
  args_out : str;
  args_style : option str;
  args_quality : Z;
  args_max_long_edge : option Z;
  args_zip : bool;
  args_job_name : option str;
  args_dry_run : bool
}.

(** The command line built by [run_darktable_export]. *)
Definition darktable_cmd (darktable_cli : str) (input_file output_file : Path)
    (style : option str) (jpg_quality : Z) (max_long_edge : option Z)
  : list str :=
  let cmd := [darktable_cli; path_str input_file; path_str output_file] in
  let cmd :=
    match style with
    | Some (c :: s) => cmd ++ [py "--style"; c :: s]
    | _ => cmd
    end in
  let conf_items :=
    [py "plugins/imageio/format/jpeg/quality=" ++ str_of_Z jpg_quality] in
  let conf_items :=
    match max_long_edge with
    | Some m =>
        if (m =? 0)%Z then conf_items
        else conf_items ++
             [py "plugins/imageio/format/jpeg/width=" ++ str_of_Z m;
              py "plugins/imageio/format/jpeg/height=" ++ str_of_Z m]
    | None => conf_items
    end in
  fold_left (fun cmd item => cmd ++ [py "--conf"; item]) conf_items cmd.

(** [subprocess.run(cmd, check=True, ...)] *)
Definition run_darktable_export (e : Env) (darktable_cli : str)
    (input_file output_file : Path) (style : option str) (jpg_quality : Z)
    (max_long_edge : option Z) : M unit :=
  let cmd := darktable_cmd darktable_cli input_file output_file style
                           jpg_quality max_long_edge in
  tell (EvRun cmd) ;;
  let r := run_process e cmd in
  if (returncode r =? 0)%Z then ret tt
  else raise (CalledProcessError (returncode r) (stderr r)).

(** ** Job metadata and packaging *)

Definition write_job_json (job_dir : Path) (payload : Payload) : M unit :=
  tell (EvWriteJson (joinpath job_dir (py "job.json")) payload).

(** [sep.join(parts)] *)
Fixpoint join (sep : str) (parts : list str) : str :=
  match parts with
  | [] => []
  | [x] => x
  | x :: rest => x ++ sep ++ join sep rest
  end.

Definition write_manifest (job_dir : Path) (image_paths : list Path) : M unit :=
  tell (EvWriteText (joinpath job_dir (py "manifest.txt"))
                    (join nl (map path_str image_paths) ++ nl)).

(** [p.with_suffix(sfx)] for [sfx] empty or a dot followed by something;
    a path without a name is refused. *)
Definition with_suffix (p : Path) (sfx : str) : M Path :=
  match name p with
  | [] => raise (ValueError (path_str p ++ py " has an empty name"))
  | nm =>
      let old := suffix p in
      let stem := firstn (length nm - length old) nm in
      ret (parent p ++ [stem ++ sfx])
  end.

(** [zip_path.exists()] is answered from the tree the run started with:
    the run itself writes only inside the job directory and its ancestors,
    never at the archive path. *)
Definition zip_job (e : Env) (job_dir zip_path : Path) : M Path :=
  zip_path <- (if negb (str_eqb (lower (suffix zip_path)) (py ".zip"))
               then with_suffix zip_path (py ".zip")
               else ret zip_path) ;;
  when (path_exists (fs e) zip_path) (tell (EvUnlink zip_path)) ;;
  base <- with_suffix zip_path [] ;;
  let base_name := path_str base in
  tell (EvMakeArchive base_name (py "zip") (path_str job_dir)) ;;
  ret (path_of_str (base_name ++ py ".zip")).

(** ** The export loop of [main] *)

(** The message of the fatal exit after a failed conversion. *)
Definition converter_failed_msg (e : Env) (f : Path) (err : list byte) : str :=
  py "darktable-cli failed on: " ++ path_str f ++ nl ++
  match err with
  | [] => []
  | _ => decode_utf8 e err
  end.

Section ExportLoop.
Variable e : Env.
Variable args : Args.
Variable darktable_cli : str.
Variable images_dir : Path.

(** The loop state: [export_index] and [exported]. *)
Definition LoopState : Type := (nat * list Path)%type.

(** One turn of the inner loop, for the file [f] of a sequence. *)
Definition export_one (seq_name : str) (f : Path) (st : LoopState)
  : M LoopState :=
  let export_index := S (fst st) in
  let out_name := seq_name ++ py "_" ++ fmt06 export_index ++ py ".jpg" in
  let out_path := joinpath images_dir out_name in
  catch
    (run_darktable_export e darktable_cli f out_path (args_style args)
                          (args_quality args) (args_max_long_edge args))
    (fun ex =>
       match ex with
       | CalledProcessError _ err =>
           raise (SystemExit (converter_failed_msg e f err))
       | _ => raise ex
       end) ;;
  let exported := snd st ++ [out_path] in
  when (export_index mod 50 =? 0)
       (eprint (py "Exported " ++ str_of_nat export_index ++ py " images...")) ;;
  ret (export_index, exported).

(** [for f in files: ...] *)
Fixpoint export_files (seq_name : str) (files : list Path) (st : LoopState)
  : M LoopState :=
  match files with
  | [] => ret st
  | f :: rest =>
      st' <- export_one seq_name f st ;;
      export_files seq_name rest st'
  end.

(** [for parent_dir, files in groups: ...] *)
Fixpoint export_groups (groups : list (Path * list Path)) (st : LoopState)
  : M LoopState :=
  match groups with
  | [] => ret st
  | (parent_dir, files) :: rest =>
      let seq_name := safe_name (name parent_dir) in
      st' <- export_files seq_name files st ;;
      export_groups rest st'
  end.

(** The whole loop, from [export_index = 0] and [exported = []]. *)
Definition export_loop (groups : list (Path * list Path)) : M LoopState :=
  export_groups groups (0, []).
End ExportLoop.

(** ** CLI entry point *)

(** [args.job_name or default_job_name(dataset_dir)] *)
Definition job_name_of (args : Args) (dataset_dir : Path) : str :=
  match args_job_name args with
  | Some (c :: s) => c :: s
  | _ => default_job_name dataset_dir
  end.

(** [dataset_dir / args.out / f"{job_name}_{timestamp}"] *)
Definition job_dir_of (e : Env) (args : Args) (dataset_dir : Path) : Path :=
  joinpath (joinpath dataset_dir (args_out args))
           (job_name_of args dataset_dir ++ py "_" ++ strftime e).

(** [job_dir / DEFAULT_IMAGES_DIRNAME] *)
Definition images_dir_of (e : Env) (args : Args) (dataset_dir : Path) : Path :=
  joinpath (job_dir_of e args dataset_dir) DEFAULT_IMAGES_DIRNAME.

(** The lines printed before anything is written. *)
Definition announce_lines (e : Env) (args : Args) (dataset_dir : Path)
    (dngs : list Path) (groups : list (Path * list Path)) : list str :=
  [ py "Dataset: " ++ path_str dataset_dir;
    py "DNG files found: " ++ str_of_nat (length dngs);
    py "Sequence folders found: " ++ str_of_nat (length groups);
    py "Job dir: " ++ path_str (job_dir_of e args dataset_dir);
    py "Images dir: " ++ path_str (images_dir_of e args dataset_dir);
    py "JPEG quality: " ++ str_of_Z (args_quality args) ]
  ++ match args_style args with
     | Some (c :: s) => [py "Darktable style: " ++ c :: s]
     | _ => []
     end
  ++ match args_max_long_edge args with
     | Some m => if (m =? 0)%Z then []
                 else [py "Max long edge: " ++ str_of_Z m ++ py "px (best effort)"]
     | None => []
     end
  ++ (if args_zip args then [py "ZIP output: enabled"] else []).

(** [for line in lines: eprint(line)] *)
Fixpoint eprint_all (lines : list str) : M unit :=
  match lines with
  | [] => ret tt
  | line :: rest => eprint line ;; eprint_all rest
  end.

(** The tail of [main]: metadata files, optional zip, closing report. *)
Definition finish (e : Env) (args : Args) (dataset_dir : Path)
    (dngs exported : list Path) : M unit :=
  let timestamp := strftime e in
  let job_name := job_name_of args dataset_dir in
  let job_dir := job_dir_of e args dataset_dir in
  let images_dir := images_dir_of e args dataset_dir in
  let payload := {|
    json_tool := py "splatpack";
    json_version := py "0.1.0";
    json_dataset_dir := path_str dataset_dir;
    json_job_dir := path_str job_dir;
    json_images_dir := path_str images_dir;
    json_inputs_found := length dngs;
    json_outputs_written := length exported;
    json_darktable_style := args_style args;
    json_jpg_quality := args_quality args;
    json_max_long_edge := args_max_long_edge args;
    json_created_at := timestamp;
    json_notes := py "If you need reliable resizing, add it to your darktable style."
  |} in
  write_job_json job_dir payload ;;
  write_manifest job_dir exported ;;
  zip_path <- (if args_zip args
               then
                 let zip_path := joinpath (joinpath dataset_dir (args_out args))
                                   (job_name ++ py "_" ++ timestamp ++ py ".zip") in
                 zip_path <- zip_job e job_dir zip_path ;;
                 eprint (py "Zipped: " ++ path_str zip_path) ;;
                 ret (Some zip_path)
               else ret None) ;;
  eprint [] ;;
  eprint (py "Done.") ;;
  eprint (py "Exported JPGs: " ++ str_of_nat (length exported)) ;;
  eprint (py "Job folder: " ++ path_str job_dir) ;;
  match zip_path with
  | Some z => eprint (py "Job zip: " ++ path_str z)
  | None => ret tt
  end.

Definition not_a_directory_msg (dataset_dir : Path) : str :=
  py "Not a directory: " ++ path_str dataset_dir.

Definition high_risk_msg (dataset_dir : Path) : str :=
  py "Refusing to run in a high risk directory: " ++ path_str dataset_dir
  ++ nl ++ py "Copy your dataset into a project folder and run splatpack there.".

Definition no_inputs_msg (dataset_dir : Path) : str :=
  py "No DNG files found under: " ++ path_str dataset_dir.

Definition dry_run_line : str := py "Dry run only, no files will be written.".

(** The part of [main] after the dry-run exit: output folder, export
    loop, metadata files, zip. *)
Definition run_job (e : Env) (args : Args) (darktable_cli : str)
    (dataset_dir : Path) (dngs : list Path) : M unit :=
  let images_dir := images_dir_of e args dataset_dir in
  ensure_dir images_dir ;;
  st <- export_loop e args darktable_cli images_dir (group_by_parent_dir dngs) ;;
  finish e args dataset_dir dngs (snd st).

Definition main (e : Env) (args : Args) : M unit :=
  let dataset_dir := resolve_arg e (args_path args) in
  if negb (path_exists (fs e) dataset_dir) || negb (is_dir (fs e) dataset_dir)
  then raise (SystemExit (not_a_directory_msg dataset_dir))
  else
  if is_dangerous_directory e dataset_dir
  then raise (SystemExit (high_risk_msg dataset_dir))
  else
  darktable_cli <- which_or_die e DARKTABLE_CLI ;;
  tell (EvRglob dataset_dir) ;;
  let dngs := iter_dngs (fs e) dataset_dir in
  match dngs with
  | [] => raise (SystemExit (no_inputs_msg dataset_dir))
  | _ =>
      let groups := group_by_parent_dir dngs in
      eprint_all (announce_lines e args dataset_dir dngs groups) ;;
      if args_dry_run args
      then eprint dry_run_line
      else run_job e args darktable_cli dataset_dir dngs
  end.

(** * Vocabulary of the properties *)

(** [x <= y] for an order given by its strict test: [y < x] fails. *)
Definition le_of (A : Type) (lt : A -> A -> bool) (x y : A) : Prop :=
  lt y x = false.

Definition str_le : str -> str -> Prop := le_of str_lt.

Definition path_le : Path -> Path -> Prop := le_of path_lt.

(** A strict order test that is asymmetric, with a transitive and
    antisymmetric [le_of]. *)
Record strict_total (A : Type) (lt : A -> A -> bool) : Prop := {
  st_asym : forall x y, lt x y = true -> lt y x = false;
  st_le_trans : forall x y z, le_of lt x y -> le_of lt y z -> le_of lt x z;
  st_le_antisym : forall x y, le_of lt x y -> le_of lt y x -> x = y
}.

(** What the dict holds while the loop of [group_by_parent_dir] runs:
    one entry per parent, no entry empty, every file under its parent. *)
Definition group_ok (kv : Path * list Path) : Prop :=
  snd kv <> [] /\ Forall (fun f => parent f = fst kv) (snd kv).

Definition collect (dngs : list Path) (groups : list (Path * list Path))
  : list (Path * list Path) :=
  fold_left (fun g p => setdefault_append (parent p) p g) dngs groups.

(** Groups in the order of their key strings. *)
Definition by_parent_str (a b : Path * list Path) : Prop :=
  str_le (path_str (fst a)) (path_str (fst b)).

Definition by_path_str (p q : Path) : Prop := str_le (path_str p) (path_str q).

(** The first character, if any, is not whitespace. *)
Definition head_ok (s : str) : Prop :=
  match s with
  | [] => True
  | c :: _ => isspace c = false
  end.

(** Nothing to strip at either end. *)
Definition clean (s : str) : Prop := head_ok s /\ head_ok (rev s).

(** What every result of [safe_name] looks like. *)
Definition sanitized (r : str) : Prop :=
  r <> [] /\ clean r /\ Forall (fun c => allowed c = true) r /\
  has_double_space r = false.

Definition isdigit (c : ascii) : bool := in_range 48 57 c.

(** [int(s)] for a string of digits. *)
Definition read_nat (s : str) : option nat :=
  option_map Nat.of_uint
    (DecimalString.NilEmpty.uint_of_string (string_of_list_ascii s)).

(** The files of all groups in group-then-file order, each with the
    directory of its group. *)
Definition export_order (groups : list (Path * list Path)) : list (Path * Path) :=
  flat_map (fun g => map (pair (fst g)) (snd g)) groups.

(** The same files with a counter that starts after [i]. *)
Definition numbered_from (i : nat) (items : list (Path * Path))
  : list (nat * (Path * Path)) :=
  combine (seq (S i) (length items)) items.

(** The naming rule: a single counter from 1 over all groups. *)
Definition numbered (groups : list (Path * list Path))
  : list (nat * (Path * Path)) :=
  numbered_from 0 (export_order groups).

(** Sanitized group name, underscore, counter on six digits, extension. *)
Definition spec_filename (group_dir : Path) (counter : nat) : str :=
  safe_name (name group_dir) ++ py "_" ++ fmt06 counter ++ py ".jpg".

Definition spec_out_path (images_dir : Path) (x : nat * (Path * Path)) : Path :=
  joinpath images_dir (spec_filename (fst (snd x)) (fst x)).

(** The converter command for one numbered file. *)
Definition export_cmd (args : Args) (darktable_cli : str) (images_dir : Path)
    (x : nat * (Path * Path)) : list str :=
  darktable_cmd darktable_cli (snd (snd x)) (spec_out_path images_dir x)
                (args_style args) (args_quality args) (args_max_long_edge args).

(** The command lines handed to [subprocess.run], in order. *)
Fixpoint runs (t : list Event) : list (list str) :=
  match t with
  | [] => []
  | EvRun cmd :: rest => cmd :: runs rest
  | _ :: rest => runs rest
  end.

(** The export loop only starts converters and prints progress. *)
Definition loop_event (ev : Event) : bool :=
  match ev with
  | EvRun _ | EvEprint _ => true
  | _ => false
  end.

Section LoopVocabulary.
Variable e : Env.
Variable args : Args.
Variable darktable_cli : str.
Variable images_dir : Path.

(** The converter accepts the numbered file [x]. *)
Definition converts (x : nat * (Path * Path)) : Prop :=
  returncode (run_process e (export_cmd args darktable_cli images_dir x)) = 0%Z.

Definition progress (export_index : nat) : list Event :=
  if export_index mod 50 =? 0
  then [EvEprint (py "Exported " ++ str_of_nat export_index ++ py " images...")]
  else [].

(** The two nested loops as one loop over [export_order]. *)
Fixpoint export_items (items : list (Path * Path)) (st : LoopState)
  : M LoopState :=
  match items with
  | [] => ret st
  | (d, f) :: rest =>
      st' <- export_one e args darktable_cli images_dir (safe_name (name d)) f st ;;
      export_items rest st'
  end.
End LoopVocabulary.

(** Events that change the disk. *)
Definition mutates (ev : Event) : bool :=
  match ev with
  | EvWhich _ | EvRglob _ | EvEprint _ => false
  | _ => true
  end.

Definition read_only (t : list Event) : bool :=
  forallb (fun ev => negb (mutates ev)) t.

(** The job artifact an event works on. *)
Inductive Kind : Type :=
| KMkdir | KExport | KMetadata | KManifest | KUnlink | KArchive.

Definition kind_of (ev : Event) : option Kind :=
  match ev with
  | EvMkdir _ => Some KMkdir
  | EvRun _ => Some KExport
  | EvWriteJson _ _ => Some KMetadata
  | EvWriteText _ _ => Some KManifest
  | EvUnlink _ => Some KUnlink
  | EvMakeArchive _ _ _ => Some KArchive
  | _ => None
  end.

Fixpoint kinds (t : list Event) : list Kind :=
  match t with
  | [] => []
  | ev :: rest =>
      match kind_of ev with
      | Some k => k :: kinds rest
      | None => kinds rest
      end
  end.

(** The place of each artifact in a run. *)
Definition rank (k : Kind) : nat :=
  match k with
  | KMkdir => 0
  | KExport => 1
  | KMetadata => 2
  | KManifest => 3
  | KUnlink => 4
  | KArchive => 5
  end.

Definition kind_le (a b : Kind) : Prop := rank a <= rank b.

(** The optional [Unlink] of an earlier archive. *)
Definition unlink_kinds (u : bool) : list Kind := if u then [KUnlink] else [].

(** The order the claim asks for: the manifest is on disk before the
    metadata record is written. *)
Definition manifest_before_metadata (t : list Event) : Prop :=
  forall i j,
    nth_error (kinds t) i = Some KManifest ->
    nth_error (kinds t) j = Some KMetadata ->
    i < j.

(** The job of a run that got past the checks and found inputs. *)
Definition job_of (e : Env) (args : Args) (darktable_cli : str) : M unit :=
  let dataset_dir := resolve_arg e (args_path args) in
  if args_dry_run args then eprint dry_run_line
  else run_job e args darktable_cli dataset_dir (iter_dngs (fs e) dataset_dir).

(** The checks passed: a directory, not on the deny-list, converter found. *)
Definition preflight (e : Env) (args : Args) (darktable_cli : str) : Prop :=
  let dataset_dir := resolve_arg e (args_path args) in
  is_dir (fs e) dataset_dir = true /\
  is_dangerous_directory e dataset_dir = false /\
  which e DARKTABLE_CLI = Some darktable_cli /\ darktable_cli <> [].

Definition first_char (s : str) : ascii := hd space s.

(** ** Well-formed paths *)

(** A component as pathlib keeps it: not empty, not ["."], no slash. *)
Definition wf_component (c : str) : Prop :=
  c <> [] /\ c <> [dot] /\ ~ In slash c.

(** A path as pathlib builds it from a string. *)
Definition wf_path (p : Path) : Prop := Forall wf_component p.

(** The name without its suffix: [p.stem]. *)
Definition stem (p : Path) : str :=
  firstn (length (name p) - length (suffix p)) (name p).

(** The test [path_eqb (parent f) d] of a file against a directory. *)
Definition in_dir (d f : Path) : bool := path_eqb (parent f) d.

(** A character that sorts after the slash. *)
Definition above_slash (c : ascii) : bool := 47 <? ord c.

(** A directory name made of such characters only. *)
Definition plain_dir (c : str) : Prop := forallb above_slash c = true.

(** The string of a path that is not the root. *)
Definition flat (p : Path) : str := flat_map (fun c => slash :: c) p.



(** The lines printed on stderr, in order. *)
Fixpoint eprints (t : list Event) : list str :=
  match t with
  | [] => []
  | EvEprint line :: rest => line :: eprints rest
  | _ :: rest => eprints rest
  end.

(** The progress line after [k] images. *)
Definition progress_line (k : nat) : str :=
  py "Exported " ++ str_of_nat k ++ py " images...".

(** ** Sample worlds *)

(** Two takes under [/data]; one frame has an upper-case extension. *)
Definition demo_tree : node :=
  Dir [(py "data",
        Dir [(py "take002", Dir [(py "c.dng", File)]);
             (py "take001", Dir [(py "b.DNG", File); (py "a.dng", File);
                                 (py "notes.txt", File)])])].

Definition cex_tree : node :=
  Dir [(py "r", Dir [(py "a.dng", File);
                     (py "a", Dir [(py "x.dng", File)])])].

(** A tree with a dataset folder that holds no raw frame. *)
Definition empty_tree : node :=
  Dir [(py "data", Dir [(py "readme.txt", File)]);
       (py "Users", Dir [(py "me", Dir [(py "shots", Dir [])])])].

(** A world with the given tree, a converter on PATH that fails exactly
    on the command lines picked by [failing], and no tool at all when
    [installed] is off. *)
Definition demo_env (tree : node) (installed : bool)
    (failing : list str -> bool) : Env := {|
  resolve_arg := path_of_str;
  resolve := fun p => p;
  home := Some [py "Users"; py "me"];
  fs := tree;
  which := fun t => if installed then Some (py "/usr/bin/" ++ t) else None;
  strftime := py "20260113_165501";
  run_process := fun cmd =>
    if failing cmd then {| returncode := 1; stderr := [x62%byte; x61%byte; x64%byte] |}
    else {| returncode := 0; stderr := [] |};
  decode_utf8 := map ascii_of_byte
|}.

Definition demo_args (dir : string) (zip dry_run : bool) : Args := {|
  args_path := py dir;
  args_out := DEFAULT_OUT_DIRNAME;
  args_style := None;
  args_quality := 95;
  args_max_long_edge := None;
  args_zip := zip;
  args_job_name := None;
  args_dry_run := dry_run
|}.

(** One folder with fifty frames, [1.dng] to [50.dng]. *)
Definition burst_tree : node :=
  Dir [(py "burst",
        Dir (map (fun k => (str_of_nat k ++ py ".dng", File)) (seq 1 50)))].

Definition never (cmd : list str) : bool := false.

(** A converter that rejects the second frame of the sample tree. *)
Definition fails_on_b (cmd : list str) : bool :=
  str_eqb (nth 1 cmd []) (py "/data/take001/b.DNG").

(** * Properties *)

(** ** The embedding on small inputs *)

Example safe_name_take : safe_name (py "take001") = py "take001".
Proof. reflexivity. Qed.

Example safe_name_mixed :
  safe_name (py "  my/shot   #1  ") = py "my_shot _1".
Proof. reflexivity. Qed.

Example fmt06_small : fmt06 3 = py "000003".
Proof. reflexivity. Qed.

Example fmt06_wide : fmt06 (10 ^ 6) = py "1000000".
Proof. vm_compute. reflexivity. Qed.

Example iter_dngs_demo :
  iter_dngs demo_tree [py "data"] =
  [[py "data"; py "take001"; py "a.dng"];
   [py "data"; py "take001"; py "b.DNG"];
   [py "data"; py "take002"; py "c.dng"]].
Proof. reflexivity. Qed.

Example group_demo :
  group_by_parent_dir (iter_dngs demo_tree [py "data"]) =
  [([py "data"; py "take001"],
    [[py "data"; py "take001"; py "a.dng"];
     [py "data"; py "take001"; py "b.DNG"]]);
   ([py "data"; py "take002"],
    [[py "data"; py "take002"; py "c.dng"]])].
Proof. reflexivity. Qed.

(** ** The order on strings and paths *)

Section LexFacts.
Variable A : Type.
Variable cmp : A -> A -> comparison.
Hypothesis cmp_eq : forall x y, cmp x y = Eq <-> x = y.
Hypothesis cmp_opp : forall x y, cmp y x = CompOpp (cmp x y).
Hypothesis cmp_trans : forall x y z, cmp x y = Lt -> cmp y z = Lt -> cmp x z = Lt.

Lemma lex_compare_eq : forall a b, lex_compare cmp a b = Eq <-> a = b.
Proof.
  induction a as [|x a IH]; destruct b as [|y b]; simpl;
    try (split; [discriminate | congruence]); try tauto.
  destruct (cmp x y) eqn:E.
  - apply cmp_eq in E. subst y. rewrite IH. split; congruence.
  - split; [discriminate|]. intros H. inversion H; subst.
    assert (cmp y y = Eq) by (apply cmp_eq; reflexivity). congruence.
  - split; [discriminate|]. intros H. inversion H; subst.
    assert (cmp y y = Eq) by (apply cmp_eq; reflexivity). congruence.
Qed.

Lemma lex_compare_opp :
  forall a b, lex_compare cmp b a = CompOpp (lex_compare cmp a b).
Proof.
  induction a as [|x a IH]; destruct b as [|y b]; simpl; auto.
  rewrite (cmp_opp x y). destruct (cmp x y); simpl; auto.
Qed.

Lemma lex_compare_trans :
  forall a b c, lex_compare cmp a b = Lt -> lex_compare cmp b c = Lt ->
                lex_compare cmp a c = Lt.
Proof.
  induction a as [|x a IH]; destruct b as [|y b]; destruct c as [|z c];
    simpl; try discriminate; auto.
  destruct (cmp x y) eqn:Exy; try discriminate.
  - apply cmp_eq in Exy. subst y.
    destruct (cmp x z); try discriminate; eauto.
  - intros _. destruct (cmp y z) eqn:Eyz; try discriminate.
    + apply cmp_eq in Eyz. subst z. rewrite Exy. reflexivity.
    + intros _. rewrite (cmp_trans Exy Eyz). reflexivity.
Qed.
End LexFacts.

Lemma ord_inj : forall c d, ord c = ord d -> c = d.
Proof.
  unfold ord. intros c d H.
  rewrite <- (ascii_nat_embedding c), <- (ascii_nat_embedding d), H.
  reflexivity.
Qed.

Lemma char_compare_eq : forall c d, char_compare c d = Eq <-> c = d.
Proof.
  unfold char_compare. intros c d. rewrite Nat.compare_eq_iff.
  split; [apply ord_inj | congruence].
Qed.

Lemma char_compare_opp : forall c d, char_compare d c = CompOpp (char_compare c d).
Proof. intros. unfold char_compare. apply Nat.compare_antisym. Qed.

Lemma char_compare_trans :
  forall c d f, char_compare c d = Lt -> char_compare d f = Lt -> char_compare c f = Lt.
Proof.
  unfold char_compare. intros c d f. rewrite !Nat.compare_lt_iff. lia.
Qed.

Lemma str_compare_eq : forall a b, str_compare a b = Eq <-> a = b.
Proof. exact (@lex_compare_eq _ _ char_compare_eq). Qed.

Lemma str_compare_opp : forall a b, str_compare b a = CompOpp (str_compare a b).
Proof. exact (@lex_compare_opp _ _ char_compare_opp). Qed.

Lemma str_compare_trans :
  forall a b c, str_compare a b = Lt -> str_compare b c = Lt -> str_compare a c = Lt.
Proof. exact (@lex_compare_trans _ _ char_compare_eq char_compare_trans). Qed.

Lemma path_compare_eq : forall p q, path_compare p q = Eq <-> p = q.
Proof. exact (@lex_compare_eq _ _ str_compare_eq). Qed.

Lemma path_compare_opp : forall p q, path_compare q p = CompOpp (path_compare p q).
Proof. exact (@lex_compare_opp _ _ str_compare_opp). Qed.

Lemma path_compare_trans :
  forall p q r, path_compare p q = Lt -> path_compare q r = Lt -> path_compare p r = Lt.
Proof. exact (@lex_compare_trans _ _ str_compare_eq str_compare_trans). Qed.

Section OrderFromCompare.
Variable A : Type.
Variable cmp : A -> A -> comparison.
Hypothesis cmp_eq : forall x y, cmp x y = Eq <-> x = y.
Hypothesis cmp_opp : forall x y, cmp y x = CompOpp (cmp x y).
Hypothesis cmp_trans : forall x y z, cmp x y = Lt -> cmp y z = Lt -> cmp x z = Lt.

Lemma compare_strict_total : strict_total (fun x y => is_lt (cmp x y)).
Proof.
  split; unfold le_of.
  - intros x y H. rewrite (cmp_opp x y). destruct (cmp x y); simpl in *; congruence.
  - intros x y z Hxy Hyz.
    rewrite (cmp_opp x y) in Hxy. rewrite (cmp_opp y z) in Hyz.
    destruct (cmp x y) eqn:Exy; simpl in Hxy; try discriminate.
    + apply cmp_eq in Exy. subst y. rewrite (cmp_opp x z).
      destruct (cmp x z); simpl in *; congruence.
    + destruct (cmp y z) eqn:Eyz; simpl in Hyz; try discriminate.
      * apply cmp_eq in Eyz. subst z. rewrite (cmp_opp x y), Exy. reflexivity.
      * rewrite (cmp_opp x z), (cmp_trans Exy Eyz). reflexivity.
  - intros x y Hxy Hyx. rewrite (cmp_opp x y) in Hxy.
    destruct (cmp x y) eqn:Exy; simpl in *; try discriminate.
    apply cmp_eq. assumption.
Qed.

Lemma compare_trichotomy :
  forall x y, is_lt (cmp x y) = true \/ x = y \/ is_lt (cmp y x) = true.
Proof.
  intros x y. rewrite (cmp_opp x y). destruct (cmp x y) eqn:E; simpl; auto.
  right. left. apply cmp_eq. assumption.
Qed.
End OrderFromCompare.

Lemma str_lt_strict_total : strict_total str_lt.
Proof.
  exact (@compare_strict_total _ _ str_compare_eq str_compare_opp str_compare_trans).
Qed.

Lemma path_lt_strict_total : strict_total path_lt.
Proof.
  exact (@compare_strict_total _ _ path_compare_eq path_compare_opp path_compare_trans).
Qed.

Lemma path_lt_trichotomy :
  forall p q, path_lt p q = true \/ p = q \/ path_lt q p = true.
Proof. exact (@compare_trichotomy _ _ path_compare_eq path_compare_opp). Qed.

(** ** list.sort *)

Section SortFacts.
Variable A : Type.
Variable lt : A -> A -> bool.

Lemma insert_sorted_perm :
  forall x l, Permutation (insert_sorted lt x l) (x :: l).
Proof.
  intros x l. induction l as [|y l IH]; simpl.
  - apply Permutation_refl.
  - destruct (lt y x).
    + eapply perm_trans; [apply perm_skip, IH | apply perm_swap].
    + apply Permutation_refl.
Qed.

Lemma list_sort_perm : forall l, Permutation (list_sort lt l) l.
Proof.
  induction l as [|x l IH]; simpl.
  - constructor.
  - eapply perm_trans; [apply insert_sorted_perm | apply perm_skip, IH].
Qed.

Lemma list_sort_nil_iff : forall l, list_sort lt l = [] <-> l = [].
Proof.
  intros l. split; intros H.
  - apply Permutation_nil. rewrite <- H. apply list_sort_perm.
  - subst l. reflexivity.
Qed.

Hypothesis lt_asym : forall x y, lt x y = true -> lt y x = false.

Lemma insert_sorted_Sorted :
  forall x l, Sorted (le_of lt) l -> Sorted (le_of lt) (insert_sorted lt x l).
Proof.
  intros x l. induction l as [|y l IH]; simpl; intros Hs.
  - repeat constructor.
  - destruct (lt y x) eqn:Hyx.
    + inversion Hs as [|? ? Hs' Hhd]; subst. constructor; [auto|].
      destruct l as [|z l]; simpl.
      * constructor. unfold le_of. auto.
      * destruct (lt z x).
        -- inversion Hhd; subst. constructor. assumption.
        -- constructor. unfold le_of. auto.
    + constructor; [assumption|]. constructor. exact Hyx.
Qed.

Lemma list_sort_Sorted : forall l, Sorted (le_of lt) (list_sort lt l).
Proof.
  induction l as [|x l IH]; simpl.
  - constructor.
  - apply insert_sorted_Sorted. assumption.
Qed.
End SortFacts.

Section SortUnique.
Variable A : Type.
Variable lt : A -> A -> bool.
Hypothesis lt_total : strict_total lt.

Lemma le_of_refl : forall x, le_of lt x x.
Proof.
  intros x. unfold le_of. destruct (lt x x) eqn:E; [|reflexivity].
  rewrite (st_asym lt_total _ _ E) in E. discriminate.
Qed.

Lemma Sorted_le_strongly :
  forall l, Sorted (le_of lt) l -> StronglySorted (le_of lt) l.
Proof.
  apply Sorted_StronglySorted. intros x y z. apply (st_le_trans lt_total).
Qed.

(** Two sorted arrangements of the same elements are the same list. *)
Lemma sorted_perm_unique :
  forall l1 l2, Sorted (le_of lt) l1 -> Sorted (le_of lt) l2 ->
                Permutation l1 l2 -> l1 = l2.
Proof.
  intros l1 l2 H1 H2. apply Sorted_le_strongly in H1, H2.
  revert l2 H2. induction H1 as [|x l1 Hs1 IH Hall1]; intros l2 H2 Hp.
  - apply Permutation_nil in Hp. congruence.
  - destruct H2 as [|y l2 Hs2 Hall2].
    + apply Permutation_sym, Permutation_nil in Hp. discriminate.
    + assert (Hxy : le_of lt x y).
      { assert (Hin : In y (x :: l1))
          by (eapply Permutation_in; [apply Permutation_sym, Hp | left; reflexivity]).
        destruct Hin as [->|Hin]; [apply le_of_refl|].
        rewrite Forall_forall in Hall1. auto. }
      assert (Hyx : le_of lt y x).
      { assert (Hin : In x (y :: l2))
          by (eapply Permutation_in; [apply Hp | left; reflexivity]).
        destruct Hin as [->|Hin]; [apply le_of_refl|].
        rewrite Forall_forall in Hall2. auto. }
      assert (x = y) by (apply (st_le_antisym lt_total); assumption).
      subst y. f_equal. apply IH; [assumption|].
      eapply Permutation_cons_inv. exact Hp.
Qed.

(** Sorting forgets the order in which the elements arrived. *)
Lemma list_sort_perm_invariant :
  forall l1 l2, Permutation l1 l2 -> list_sort lt l1 = list_sort lt l2.
Proof.
  intros l1 l2 Hp. apply sorted_perm_unique.
  - apply list_sort_Sorted, (st_asym lt_total).
  - apply list_sort_Sorted, (st_asym lt_total).
  - eapply perm_trans; [apply list_sort_perm|].
    eapply perm_trans; [exact Hp|]. apply Permutation_sym, list_sort_perm.
Qed.
End SortUnique.

(** ** Grouping by parent directory *)

Lemma path_eqb_eq : forall p q, path_eqb p q = true <-> p = q.
Proof.
  intros p q. unfold path_eqb.
  destruct (list_eq_dec (list_eq_dec ascii_dec) p q); split; congruence.
Qed.

Lemma str_eqb_eq : forall a b, str_eqb a b = true <-> a = b.
Proof.
  intros a b. unfold str_eqb.
  destruct (list_eq_dec ascii_dec a b); split; congruence.
Qed.

Lemma setdefault_append_keys :
  forall k p g,
    map fst (setdefault_append k p g) =
    if existsb (fun k' => path_eqb k' k) (map fst g) then map fst g
    else map fst g ++ [k].
Proof.
  intros k p g. induction g as [|[k' ps] g IH]; simpl.
  - reflexivity.
  - destruct (path_eqb k' k) eqn:E; simpl.
    + reflexivity.
    + rewrite IH. destruct (existsb _ (map fst g)); reflexivity.
Qed.

Lemma setdefault_append_NoDup :
  forall k p g, NoDup (map fst g) -> NoDup (map fst (setdefault_append k p g)).
Proof.
  intros k p g Hnd. rewrite setdefault_append_keys.
  destruct (existsb _ (map fst g)) eqn:E; [assumption|].
  apply NoDup_app; [assumption | repeat constructor; simpl; tauto |].
  intros x Hx [<-|[]].
  assert (existsb (fun k' => path_eqb k' k) (map fst g) = true); [|congruence].
  apply existsb_exists. exists k. split; [assumption | apply path_eqb_eq; reflexivity].
Qed.

Lemma setdefault_append_ok :
  forall p g, Forall group_ok g ->
              Forall group_ok (setdefault_append (parent p) p g).
Proof.
  intros p g. induction g as [|[k' ps] g IH]; simpl; intros H.
  - constructor; [|constructor].
    split; simpl; [discriminate | constructor; [reflexivity | constructor]].
  - inversion H as [|? ? [Hne Hpar] Hrest]; subst. simpl in *.
    destruct (path_eqb k' (parent p)) eqn:E.
    + apply path_eqb_eq in E. constructor; [|assumption]. split; simpl.
      * destruct ps; discriminate.
      * apply Forall_app. split; [assumption|].
        constructor; [congruence | constructor].
    + constructor; [split; assumption | auto].
Qed.

Lemma setdefault_append_files :
  forall k p g,
    Permutation (flat_map snd (setdefault_append k p g)) (p :: flat_map snd g).
Proof.
  intros k p g. induction g as [|[k' ps] g IH]; simpl.
  - apply Permutation_refl.
  - destruct (path_eqb k' k); simpl.
    + rewrite <- app_assoc. simpl.
      apply Permutation_sym, Permutation_middle.
    + eapply perm_trans; [apply Permutation_app_head, IH|].
      apply Permutation_sym, Permutation_middle.
Qed.

Lemma collect_invariant :
  forall dngs g,
    NoDup (map fst g) -> Forall group_ok g ->
    NoDup (map fst (collect dngs g)) /\
    Forall group_ok (collect dngs g) /\
    Permutation (flat_map snd (collect dngs g)) (dngs ++ flat_map snd g).
Proof.
  unfold collect. induction dngs as [|p dngs IH]; simpl; intros g Hnd Hok.
  - repeat split; auto.
  - destruct (IH (setdefault_append (parent p) p g)) as (H1 & H2 & H3).
    + apply setdefault_append_NoDup. assumption.
    + apply setdefault_append_ok. assumption.
    + repeat split; try assumption.
      eapply perm_trans; [exact H3|].
      eapply perm_trans; [apply Permutation_app_head, setdefault_append_files|].
      apply Permutation_sym, Permutation_middle.
Qed.

Lemma Sorted_map_same_key :
  forall (A : Type) (R : A -> A -> Prop) (f : A -> A),
    (forall x y, R x y -> R (f x) (f y)) ->
    forall l, Sorted R l -> Sorted R (map f l).
Proof.
  intros A R f Hf l Hs. induction Hs as [|x l Hs IH Hhd]; simpl.
  - constructor.
  - constructor; [assumption|].
    destruct Hhd; simpl; constructor. auto.
Qed.

Lemma group_by_parent_dir_files :
  forall dngs, Permutation (concat (map snd (group_by_parent_dir dngs))) dngs.
Proof.
  intros dngs.
  destruct (collect_invariant dngs (g := [])) as (_ & _ & Hperm);
    [constructor | constructor |].
  rewrite app_nil_r in Hperm.
  rewrite <- flat_map_concat_map. unfold group_by_parent_dir.
  fold (collect dngs []).
  set (grouped := sorted_by_key str_lt _ (collect dngs [])).
  assert (Hpg : Permutation grouped (collect dngs [])) by apply list_sort_perm.
  eapply perm_trans with (flat_map snd grouped).
  - clear. induction grouped as [|kv l IH]; simpl; [constructor|].
    apply Permutation_app; [apply list_sort_perm | exact IH].
  - eapply perm_trans; [apply Permutation_flat_map, Hpg | exact Hperm].
Qed.

(** C5: grouping is a partition of the discovered files.  The files of all
    groups together are the input list rearranged; group keys are distinct
    and every file sits in the group of its parent, hence in exactly one
    group; groups come in the order of their parent path strings; the files
    of a group are sorted; no group is empty. *)
Theorem group_by_parent_dir_partition :
  forall dngs : list Path,
    let groups := group_by_parent_dir dngs in
    Permutation (concat (map snd groups)) dngs /\
    NoDup (map fst groups) /\
    (forall d files f, In (d, files) groups -> In f files -> parent f = d) /\
    (forall f, In f dngs ->
       exists files, In (parent f, files) groups /\ In f files) /\
    (forall g1 g2 f, In g1 groups -> In g2 groups ->
       In f (snd g1) -> In f (snd g2) -> g1 = g2) /\
    Sorted by_parent_str groups /\
    Forall (fun g => Sorted path_le (snd g)) groups /\
    Forall (fun g => snd g <> []) groups.
Proof.
  intros dngs groups.
  destruct (collect_invariant dngs (g := [])) as (Hnd & Hok & Hperm);
    [constructor | constructor |].
  fold (collect dngs []) in *.
  set (raw := collect dngs []) in *.
  set (key := fun kv : Path * list Path => path_str (fst kv)).
  set (grouped := sorted_by_key str_lt key raw).
  assert (Hg : groups = map (fun kv => (fst kv, list_sort path_lt (snd kv))) grouped)
    by reflexivity.
  assert (Hpg : Permutation grouped raw) by apply list_sort_perm.
  assert (Hkeys : map fst groups = map fst grouped).
  { rewrite Hg, map_map. reflexivity. }
  assert (Hfiles : Permutation (concat (map snd groups)) dngs)
    by apply group_by_parent_dir_files.
  assert (Hnd' : NoDup (map fst groups)).
  { rewrite Hkeys. eapply Permutation_NoDup; [|exact Hnd].
    apply Permutation_map, Permutation_sym, Hpg. }
  assert (Hpar : forall d files f, In (d, files) groups -> In f files -> parent f = d).
  { intros d files f Hin Hf. rewrite Hg in Hin. apply in_map_iff in Hin.
    destruct Hin as ([k ps] & Heq & Hin). simpl in Heq. inversion Heq; subst.
    assert (Hraw : In (d, ps) raw) by (eapply Permutation_in; eauto).
    rewrite Forall_forall in Hok. destruct (Hok _ Hraw) as [_ Hall].
    rewrite Forall_forall in Hall. apply Hall.
    eapply Permutation_in; [apply list_sort_perm | exact Hf]. }
  assert (Huniq : forall g1 g2 f, In g1 groups -> In g2 groups ->
            In f (snd g1) -> In f (snd g2) -> g1 = g2).
  { intros [d1 f1] [d2 f2] f H1 H2 Hf1 Hf2. simpl in *.
    assert (d1 = d2) by (rewrite <- (Hpar _ _ _ H1 Hf1); eauto). subst d2.
    f_equal. clear - Hnd' H1 H2. induction groups as [|[k v] l IH]; [contradiction|].
    simpl in Hnd'. inversion Hnd' as [|? ? Hnot Hnd'']; subst.
    destruct H1 as [E1|H1], H2 as [E2|H2].
    - congruence.
    - inversion E1; subst. exfalso. apply Hnot.
      change d1 with (fst (d1, f2)). apply in_map. assumption.
    - inversion E2; subst. exfalso. apply Hnot.
      change d1 with (fst (d1, f1)). apply in_map. assumption.
    - auto. }
  repeat split; try assumption.
  - intros f Hf.
    assert (Hin : In f (concat (map snd groups)))
      by (eapply Permutation_in; [apply Permutation_sym, Hfiles | exact Hf]).
    apply in_concat in Hin. destruct Hin as (files & Hfs & Hff).
    apply in_map_iff in Hfs. destruct Hfs as ([d fs'] & Heq & Hin).
    simpl in Heq. subst fs'. exists files. split; [|assumption].
    rewrite (Hpar _ _ _ Hin Hff). assumption.
  - rewrite Hg. apply Sorted_map_same_key; [intros x y H; exact H|].
    apply (@list_sort_Sorted _ (fun a b => str_lt (key a) (key b))).
    intros x y. apply (st_asym str_lt_strict_total).
  - rewrite Hg. apply Forall_forall. intros g Hin. apply in_map_iff in Hin.
    destruct Hin as (kv & <- & _). simpl.
    apply list_sort_Sorted. apply (st_asym path_lt_strict_total).
  - rewrite Hg. apply Forall_forall. intros g Hin. apply in_map_iff in Hin.
    destruct Hin as (kv & <- & Hin). simpl.
    assert (Hraw : In kv raw) by (eapply Permutation_in; eauto).
    rewrite Forall_forall in Hok. destruct (Hok _ Hraw) as [Hne _].
    intros Hnil. apply list_sort_nil_iff in Hnil. contradiction.
Qed.

(** ** File discovery *)

Lemma filter_perm :
  forall (A : Type) (f : A -> bool) (l1 l2 : list A),
    Permutation l1 l2 -> Permutation (filter f l1) (filter f l2).
Proof.
  intros A f l1 l2 Hp. induction Hp; simpl.
  - constructor.
  - destruct (f x); [apply perm_skip|]; assumption.
  - destruct (f x), (f y); try apply Permutation_refl. apply perm_swap.
  - eapply perm_trans; eassumption.
Qed.

Lemma is_dng_iff :
  forall fs p,
    is_dng fs p = true <->
    is_file fs p = true /\ lower (suffix p) = py ".dng".
Proof.
  intros fs p. unfold is_dng, DNG_EXTS. simpl.
  rewrite andb_true_iff, orb_false_r, str_eqb_eq. tauto.
Qed.

(** C3, as the claim words it, fails: with [/r/a.dng] and [/r/a/x.dng] on
    disk the result lists [/r/a/x.dng] first, while as strings
    ["/r/a.dng" < "/r/a/x.dng"] (a dot sorts before a slash). *)
Lemma iter_dngs_not_sorted_by_path_string :
  iter_dngs cex_tree [py "r"] =
    [[py "r"; py "a"; py "x.dng"]; [py "r"; py "a.dng"]] /\
  ~ Sorted by_path_str (iter_dngs cex_tree [py "r"]).
Proof.
  split; [reflexivity|].
  intros H. inversion H as [|? ? _ Hhd]; subst.
  inversion Hhd as [|? ? Hle]; subst.
  vm_compute in Hle. discriminate.
Qed.

(** C3, amended: discovery returns exactly the regular files whose
    lower-cased suffix is [.dng], sorted by the order of Path objects,
    which compares the component sequences (a total order); the result
    does not depend on the order in which the tree is listed. *)
Theorem iter_dngs_sorted_deterministic :
  forall (fs : node) (root : Path),
    let found := iter_dngs fs root in
    (forall p, In p found <->
               In p (rglob fs root) /\ is_file fs p = true /\
               lower (suffix p) = py ".dng") /\
    Permutation found (filter (is_dng fs) (rglob fs root)) /\
    Sorted path_le found /\
    (forall p q, path_lt p q = true \/ p = q \/ path_lt q p = true) /\
    (forall listing, Permutation (rglob fs root) listing ->
                     select_dngs fs listing = found).
Proof.
  intros fs root found.
  assert (Hperm : Permutation found (filter (is_dng fs) (rglob fs root)))
    by apply list_sort_perm.
  split; [|split; [|split; [|split]]].
  - intros p. split.
    + intros Hin. eapply Permutation_in in Hin; [|exact Hperm].
      apply filter_In in Hin. destruct Hin as [Hin Hd].
      apply is_dng_iff in Hd. tauto.
    + intros (Hin & Hf & Hs).
      eapply Permutation_in; [apply Permutation_sym, Hperm|].
      apply filter_In. split; [assumption|]. apply is_dng_iff. tauto.
  - exact Hperm.
  - apply list_sort_Sorted. apply (st_asym path_lt_strict_total).
  - apply path_lt_trichotomy.
  - intros listing Hl. unfold found, iter_dngs, select_dngs.
    apply list_sort_perm_invariant; [apply path_lt_strict_total|].
    apply filter_perm, Permutation_sym, Hl.
Qed.

(** The guarantee on a tree whose listing order changed between two runs. *)
Lemma iter_dngs_sorted_deterministic_witness :
  select_dngs demo_tree (rev (rglob demo_tree [py "data"])) =
  iter_dngs demo_tree [py "data"].
Proof.
  destruct (iter_dngs_sorted_deterministic demo_tree [py "data"])
    as (_ & _ & _ & _ & H).
  apply H, Permutation_rev.
Defined.

(** ** safe_name *)

Lemma lstrip_head_ok : forall s, head_ok (lstrip s).
Proof.
  induction s as [|c s IH]; simpl; [exact I|].
  destruct (isspace c) eqn:E; [exact IH | exact E].
Qed.

Lemma lstrip_fixed : forall s, head_ok s -> lstrip s = s.
Proof. intros [|c s] H; simpl in *; [reflexivity | rewrite H; reflexivity]. Qed.

Lemma lstrip_suffix : forall s, exists w, s = w ++ lstrip s.
Proof.
  induction s as [|c s [w IH]]; simpl.
  - exists []. reflexivity.
  - destruct (isspace c).
    + exists (c :: w). simpl. congruence.
    + exists []. reflexivity.
Qed.

Lemma head_ok_prefix : forall a b, head_ok (a ++ b) -> a <> [] -> head_ok a.
Proof. intros [|c a] b H Hne; [contradiction | exact H]. Qed.

Lemma strip_clean : forall s, clean (strip s).
Proof.
  intros s. unfold clean, strip, rstrip. split.
  - destruct (lstrip_suffix (rev (lstrip s))) as [w Hw].
    destruct (rev (lstrip (rev (lstrip s)))) eqn:E; [exact I|].
    rewrite <- E. apply head_ok_prefix with (b := rev w).
    + rewrite <- rev_app_distr, <- Hw, rev_involutive. apply lstrip_head_ok.
    + rewrite E. discriminate.
  - rewrite rev_involutive. apply lstrip_head_ok.
Qed.

Lemma strip_fixed : forall s, clean s -> strip s = s.
Proof.
  intros s [H1 H2]. unfold strip, rstrip.
  rewrite (lstrip_fixed s H1), (lstrip_fixed (rev s) H2). apply rev_involutive.
Qed.

Lemma strip_idempotent : forall s, strip (strip s) = strip s.
Proof. intros s. apply strip_fixed, strip_clean. Qed.

Lemma sanitize_char_not_space :
  forall c, isspace c = false -> isspace (sanitize_char c) = false.
Proof.
  intros c H. unfold sanitize_char. destruct (allowed c); [exact H | reflexivity].
Qed.

Lemma sanitize_char_allowed : forall c, allowed (sanitize_char c) = true.
Proof.
  intros c. unfold sanitize_char. destruct (allowed c) eqn:E; [exact E | reflexivity].
Qed.

Lemma head_ok_map_sanitize : forall s, head_ok s -> head_ok (map sanitize_char s).
Proof. intros [|c s] H; simpl; [exact I | apply sanitize_char_not_space, H]. Qed.

Lemma clean_map_sanitize : forall s, clean s -> clean (map sanitize_char s).
Proof.
  intros s [H1 H2]. split.
  - apply head_ok_map_sanitize, H1.
  - rewrite <- map_rev. apply head_ok_map_sanitize, H2.
Qed.

Lemma map_sanitize_fixed :
  forall s, Forall (fun c => allowed c = true) s -> map sanitize_char s = s.
Proof.
  induction 1 as [|c s Hc _ IH]; simpl; [reflexivity|].
  unfold sanitize_char at 1. rewrite Hc, IH. reflexivity.
Qed.

Lemma head_ok_rev_last :
  forall s d, s <> [] -> (head_ok (rev s) <-> isspace (last s d) = false).
Proof.
  intros s d Hne. rewrite (app_removelast_last d Hne) at 1.
  rewrite rev_app_distr. simpl. tauto.
Qed.

(** Induction that follows the two-character steps of [str.replace]. *)
Lemma list_pair_ind :
  forall (A : Type) (P : list A -> Prop),
    P [] -> (forall a, P [a]) ->
    (forall a b r, P r -> P (b :: r) -> P (a :: b :: r)) ->
    forall s, P s.
Proof.
  intros A P H0 H1 H2 s.
  assert (H : P s /\ forall a, P (a :: s)); [|tauto].
  induction s as [|b s [IH1 IH2]]; split; auto.
Qed.

Lemma replace_double_space_step :
  forall a b r,
    replace_double_space (a :: b :: r) =
    if Ascii.eqb a space && Ascii.eqb b space
    then a :: replace_double_space r
    else a :: replace_double_space (b :: r).
Proof.
  intros a b r. simpl.
  destruct (Ascii.eqb a space) eqn:Ea; simpl; [|reflexivity].
  apply Ascii.eqb_eq in Ea. subst a. reflexivity.
Qed.

Lemma replace_double_space_nil :
  forall s, replace_double_space s = [] <-> s = [].
Proof.
  intros [|a [|b r]]; try tauto.
  rewrite replace_double_space_step.
  destruct (_ && _); split; discriminate.
Qed.

Lemma replace_double_space_hd :
  forall s d, hd d (replace_double_space s) = hd d s.
Proof.
  intros [|a [|b r]] d; try reflexivity.
  rewrite replace_double_space_step. destruct (_ && _); reflexivity.
Qed.

Lemma last_cons_nonnil :
  forall (A : Type) (a : A) l d, l <> [] -> last (a :: l) d = last l d.
Proof. intros A a [|b l] d H; [contradiction | reflexivity]. Qed.

Lemma replace_double_space_last :
  forall s d, last (replace_double_space s) d = last s d.
Proof.
  intros s d. induction s as [| a | a b r IHr IHbr] using list_pair_ind;
    try reflexivity.
  rewrite replace_double_space_step.
  destruct (Ascii.eqb a space && Ascii.eqb b space) eqn:E.
  - apply andb_true_iff in E. destruct E as [Ea Eb].
    apply Ascii.eqb_eq in Ea, Eb. subst a b.
    destruct r as [|c r]; [reflexivity|].
    rewrite last_cons_nonnil
      by (intros H; apply (proj1 (replace_double_space_nil _)) in H; discriminate).
    rewrite IHr. reflexivity.
  - rewrite last_cons_nonnil
      by (intros H; apply (proj1 (replace_double_space_nil _)) in H; discriminate).
    rewrite IHbr. reflexivity.
Qed.

Lemma replace_double_space_length_le :
  forall s, length (replace_double_space s) <= length s.
Proof.
  intros s. induction s as [| a | a b r IHr IHbr] using list_pair_ind;
    try (simpl; lia).
  rewrite replace_double_space_step. destruct (_ && _); simpl in *; lia.
Qed.

Lemma replace_double_space_length_lt :
  forall s, has_double_space s = true ->
            length (replace_double_space s) < length s.
Proof.
  intros s. induction s as [| a | a b r IHr IHbr] using list_pair_ind;
    try discriminate.
  intros H. rewrite replace_double_space_step.
  change (has_double_space (a :: b :: r))
    with ((Ascii.eqb a space && Ascii.eqb b space) || has_double_space (b :: r)) in H.
  destruct (Ascii.eqb a space && Ascii.eqb b space); simpl in H.
  - pose proof (replace_double_space_length_le r). simpl. lia.
  - specialize (IHbr H). simpl in *. lia.
Qed.

Lemma replace_double_space_Forall :
  forall (P : ascii -> Prop) s, Forall P s -> Forall P (replace_double_space s).
Proof.
  intros P s. induction s as [| a | a b r IHr IHbr] using list_pair_ind;
    intros H; try assumption.
  rewrite replace_double_space_step.
  inversion H as [|? ? Ha Hbr]; subst. inversion Hbr as [|? ? Hb Hr]; subst.
  destruct (_ && _); constructor; auto.
Qed.

(** The loop stops with no double space left: [length s] turns suffice. *)
Lemma collapse_loop_settles :
  forall fuel s, length s <= fuel ->
                 has_double_space (collapse_loop fuel s) = false.
Proof.
  induction fuel as [|fuel IH]; intros s Hlen; simpl.
  - destruct s; [reflexivity | simpl in Hlen; lia].
  - destruct (has_double_space s) eqn:E; [|exact E].
    apply IH. pose proof (replace_double_space_length_lt s E). lia.
Qed.

(** More turns than needed change nothing. *)
Lemma collapse_loop_enough :
  forall fuel fuel' s, length s <= fuel -> length s <= fuel' ->
                       collapse_loop fuel s = collapse_loop fuel' s.
Proof.
  induction fuel as [|fuel IH]; intros fuel' s H H'.
  - destruct s; [destruct fuel'; reflexivity | simpl in H; lia].
  - destruct fuel' as [|fuel'].
    + destruct s; [reflexivity | simpl in H'; lia].
    + simpl. destruct (has_double_space s) eqn:E; [|reflexivity].
      pose proof (replace_double_space_length_lt s E).
      apply IH; lia.
Qed.

Lemma collapse_loop_fixed :
  forall fuel s, has_double_space s = false -> collapse_loop fuel s = s.
Proof. intros [|fuel] s H; simpl; [|rewrite H]; reflexivity. Qed.

Section CollapseKeeps.
Variable P : str -> Prop.
Hypothesis P_replace : forall s, P s -> P (replace_double_space s).

Lemma collapse_loop_keeps : forall fuel s, P s -> P (collapse_loop fuel s).
Proof.
  induction fuel as [|fuel IH]; intros s H; simpl; [exact H|].
  destruct (has_double_space s); auto.
Qed.
End CollapseKeeps.

Lemma collapse_spaces_no_double :
  forall s, has_double_space (collapse_spaces s) = false.
Proof. intros s. apply collapse_loop_settles. constructor. Qed.

Lemma collapse_spaces_fixed :
  forall s, has_double_space s = false -> collapse_spaces s = s.
Proof. intros s. apply collapse_loop_fixed. Qed.

Lemma collapse_spaces_Forall :
  forall (P : ascii -> Prop) s, Forall P s -> Forall P (collapse_spaces s).
Proof.
  intros P s. apply (@collapse_loop_keeps (Forall P)).
  apply replace_double_space_Forall.
Qed.

Lemma collapse_spaces_nonnil : forall s, s <> [] -> collapse_spaces s <> [].
Proof.
  intros s. apply (@collapse_loop_keeps (fun s => s <> [])).
  intros s' H H'. apply (proj1 (replace_double_space_nil _)) in H'. contradiction.
Qed.

Lemma collapse_spaces_clean : forall s, clean s -> clean (collapse_spaces s).
Proof.
  intros s Hc.
  apply (@collapse_loop_keeps clean); [|exact Hc].
  clear. intros s [H1 H2].
  destruct s as [|a s]; [split; exact I|].
  assert (Hne : replace_double_space (a :: s) <> []).
  { intros H. apply (proj1 (replace_double_space_nil _)) in H. discriminate. }
  split.
  - pose proof (replace_double_space_hd (a :: s) a) as Hhd.
    destruct (replace_double_space (a :: s)) as [|c r]; [exact I|].
    simpl in *. congruence.
  - apply (head_ok_rev_last a Hne). rewrite replace_double_space_last.
    apply (head_ok_rev_last a); [discriminate | exact H2].
Qed.

Lemma safe_name_nonempty_input :
  forall s, strip s <> [] ->
            safe_name s = collapse_spaces (map sanitize_char (strip s)).
Proof.
  intros s Hne. unfold safe_name.
  pose proof (strip_clean s) as Hc.
  destruct (strip s) as [|a t] eqn:E; [contradiction|].
  rewrite (strip_fixed (clean_map_sanitize Hc)). reflexivity.
Qed.

Lemma safe_name_empty_input :
  forall s, strip s = [] -> safe_name s = py "dataset".
Proof. intros s H. unfold safe_name. rewrite H. reflexivity. Qed.

Lemma safe_name_sanitized : forall s, sanitized (safe_name s).
Proof.
  intros s. destruct (list_eq_dec ascii_dec (strip s) []) as [E|E].
  - rewrite (safe_name_empty_input s E).
    repeat split; try discriminate; try reflexivity.
    repeat constructor.
  - rewrite (safe_name_nonempty_input s E). repeat split.
    + apply collapse_spaces_nonnil. destruct (strip s); [contradiction | discriminate].
    + apply (collapse_spaces_clean (clean_map_sanitize (strip_clean s))).
    + apply (collapse_spaces_clean (clean_map_sanitize (strip_clean s))).
    + apply collapse_spaces_Forall. apply Forall_forall. intros c Hc.
      apply in_map_iff in Hc. destruct Hc as (c' & <- & _).
      apply sanitize_char_allowed.
    + apply collapse_spaces_no_double.
Qed.

Lemma safe_name_fixed : forall r, sanitized r -> safe_name r = r.
Proof.
  intros r (Hne & Hc & Hall & Hds).
  assert (Hs : strip r = r) by (apply strip_fixed, Hc).
  rewrite safe_name_nonempty_input by congruence.
  rewrite Hs, (map_sanitize_fixed Hall). apply collapse_spaces_fixed, Hds.
Qed.

Lemma map_sanitize_disallowed :
  forall t, Forall (fun c => allowed c = false) t ->
            map sanitize_char t = repeat underscore (length t).
Proof.
  induction 1 as [|c t Hc _ IH]; simpl; [reflexivity|].
  unfold sanitize_char at 1. rewrite Hc, IH. reflexivity.
Qed.

Lemma underscores_no_double_space :
  forall n, has_double_space (repeat underscore n) = false.
Proof.
  induction n as [|n IH]; [reflexivity|].
  simpl. destruct (repeat underscore n); [reflexivity | exact IH].
Qed.

(** C4, as the claim words it, fails: a tab is outside the allowed set, so
    the one-character string holding it consists only of disallowed
    characters, yet it is whitespace, gets stripped, and the result is the
    placeholder, not underscores. *)
Lemma safe_name_tab_is_placeholder :
  [chr 9] <> [] /\
  Forall (fun c => allowed c = false) [chr 9] /\
  safe_name [chr 9] = py "dataset" /\
  ~ Forall (fun c => c = underscore) (safe_name [chr 9]).
Proof.
  split; [discriminate|]. split; [repeat constructor|]. split; [reflexivity|].
  intros H. inversion H as [|? ? Hd _]. discriminate Hd.
Qed.

(** C4, amended: [safe_name] is idempotent and never returns the empty
    string; when the stripped input is non-empty and holds only disallowed
    characters the result is one underscore per character of it; a
    non-empty stripped input is mapped character by character (characters
    outside the allowed set become underscores, the others stay) and runs
    of spaces are then collapsed, so no double space is left and every
    character of the result is allowed; an input that strips to nothing
    gives the placeholder ["dataset"]. *)
Theorem safe_name_idempotent_total :
  forall s : str,
    safe_name (safe_name s) = safe_name s /\
    safe_name s <> [] /\
    (strip s <> [] -> Forall (fun c => allowed c = false) (strip s) ->
       safe_name s = repeat underscore (length (strip s))) /\
    (strip s <> [] ->
       safe_name s = collapse_spaces (map sanitize_char (strip s))) /\
    (forall c, sanitize_char c = if allowed c then c else underscore) /\
    has_double_space (safe_name s) = false /\
    Forall (fun c => allowed c = true) (safe_name s) /\
    (strip s = [] -> safe_name s = py "dataset").
Proof.
  intros s. pose proof (safe_name_sanitized s) as Hsan.
  split; [apply safe_name_fixed, Hsan|].
  destruct Hsan as (Hne & _ & Hall & Hds).
  split; [exact Hne|]. split.
  - intros Hs Hdis. rewrite (safe_name_nonempty_input s Hs).
    rewrite (map_sanitize_disallowed Hdis).
    apply collapse_spaces_fixed, underscores_no_double_space.
  - split; [apply safe_name_nonempty_input|].
    split; [reflexivity|]. split; [exact Hds|]. split; [exact Hall|].
    apply safe_name_empty_input.
Qed.

(** A string of disallowed characters between blanks: three underscores. *)
Lemma safe_name_idempotent_total_witness :
  safe_name (py " /#: ") = repeat underscore (length (strip (py " /#: "))).
Proof.
  destruct (safe_name_idempotent_total (py " /#: ")) as (_ & _ & H & _).
  apply H.
  - discriminate.
  - repeat constructor.
Defined.

(** ** The effect monad *)

Lemma bind_ok :
  forall (A B : Type) (m : M A) (k : A -> M B) t a,
    m = (t, Ok a) -> bind m k = (t ++ trace (k a), result (k a)).
Proof. intros A B m k t a ->. unfold bind, trace, result. destruct (k a); reflexivity. Qed.

Lemma bind_raise :
  forall (A B : Type) (m : M A) (k : A -> M B) t ex,
    m = (t, Raise ex) -> bind m k = (t, Raise ex).
Proof. intros A B m k t ex ->. reflexivity. Qed.

Lemma bind_ext :
  forall (A B : Type) (m : M A) (k k' : A -> M B),
    (forall a, k a = k' a) -> bind m k = bind m k'.
Proof.
  intros A B [t [a|ex]] k k' H; simpl; [rewrite H|]; reflexivity.
Qed.

Lemma bind_ret_l :
  forall (A B : Type) (a : A) (k : A -> M B), bind (ret a) k = k a.
Proof. intros A B a k. unfold bind, ret. destruct (k a). reflexivity. Qed.

Lemma bind_assoc :
  forall (A B C : Type) (m : M A) (f : A -> M B) (g : B -> M C),
    bind (bind m f) g = bind m (fun a => bind (f a) g).
Proof.
  intros A B C [t [a|ex]] f g; simpl; [|reflexivity].
  destruct (f a) as [t1 [b|ex]]; simpl; [|reflexivity].
  destruct (g b) as [t2 r]. rewrite app_assoc. reflexivity.
Qed.

Lemma bind_inv_ok :
  forall (A B : Type) (m : M A) (k : A -> M B) t b,
    bind m k = (t, Ok b) ->
    exists t1 a t2, m = (t1, Ok a) /\ k a = (t2, Ok b) /\ t = t1 ++ t2.
Proof.
  intros A B [t1 [a|ex]] k t b H; simpl in H; [|discriminate].
  destruct (k a) as [t2 r] eqn:E. inversion H; subst.
  exists t1, a, t2. auto.
Qed.

Lemma eprint_all_eq :
  forall lines, eprint_all lines = (map EvEprint lines, Ok tt).
Proof.
  induction lines as [|l lines IH]; [reflexivity|].
  simpl. rewrite IH. reflexivity.
Qed.

(** ** The export loop *)

Lemma runs_app : forall t1 t2, runs (t1 ++ t2) = runs t1 ++ runs t2.
Proof.
  induction t1 as [|ev t1 IH]; intros t2; simpl; [reflexivity|].
  destruct ev; simpl; rewrite ?IH; reflexivity.
Qed.

Section ExportLoopFacts.
Variable e : Env.
Variable args : Args.
Variable darktable_cli : str.
Variable images_dir : Path.


Lemma export_one_eq :
  forall d f i exported,
    let x := (S i, (d, f)) in
    let r := run_process e ((export_cmd args darktable_cli images_dir) x) in
    export_one e args darktable_cli images_dir (safe_name (name d)) f (i, exported) =
    if (returncode r =? 0)%Z
    then (EvRun ((export_cmd args darktable_cli images_dir) x) :: progress (S i), Ok (S i, exported ++ [(spec_out_path images_dir) x]))
    else ([EvRun ((export_cmd args darktable_cli images_dir) x)],
          Raise (SystemExit (converter_failed_msg e f (stderr r)))).
Proof.
  intros d f i exported x r.
  unfold export_one, run_darktable_export, progress, when, eprint.
  cbn [fst snd].
  change (darktable_cmd darktable_cli f
            (joinpath images_dir
               (safe_name (name d) ++ py "_" ++ fmt06 (S i) ++ py ".jpg"))
            (args_style args) (args_quality args) (args_max_long_edge args))
    with ((export_cmd args darktable_cli images_dir) x).
  fold r.
  destruct (returncode r =? 0)%Z.
  - unfold bind, catch, tell, ret.
    destruct (S i mod 50 =? 0); reflexivity.
  - reflexivity.
Qed.

Lemma export_items_app :
  forall a b st,
    export_items e args darktable_cli images_dir (a ++ b) st = bind (export_items e args darktable_cli images_dir a st) (export_items e args darktable_cli images_dir b).
Proof.
  induction a as [|[d f] a IH]; intros b st.
  - cbn [app export_items]. rewrite bind_ret_l. reflexivity.
  - cbn [app export_items]. rewrite bind_assoc.
    apply bind_ext. intros st'. apply IH.
Qed.

Lemma export_files_items :
  forall d files st,
    export_files e args darktable_cli images_dir (safe_name (name d)) files st =
    export_items e args darktable_cli images_dir (map (pair d) files) st.
Proof.
  intros d files. induction files as [|f files IH]; intros st.
  - reflexivity.
  - cbn [map export_files export_items].
    apply bind_ext. intros st'. apply IH.
Qed.

Lemma export_groups_items :
  forall groups st,
    export_groups e args darktable_cli images_dir groups st =
    export_items e args darktable_cli images_dir (export_order groups) st.
Proof.
  induction groups as [|[d files] groups IH]; intros st.
  - reflexivity.
  - cbn [export_groups export_order flat_map fst snd].
    rewrite export_items_app, export_files_items.
    apply bind_ext. intros st'. apply IH.
Qed.

Lemma numbered_from_cons :
  forall i x items,
    numbered_from i (x :: items) = (S i, x) :: numbered_from (S i) items.
Proof. reflexivity. Qed.

(** A loop that returns has given every file the next counter value. *)
Lemma export_items_returns :
  forall items i exported t st,
    export_items e args darktable_cli images_dir items (i, exported) = (t, Ok st) ->
    st = (i + length items, exported ++ map (spec_out_path images_dir) (numbered_from i items)) /\
    runs t = map (export_cmd args darktable_cli images_dir) (numbered_from i items) /\
    forallb loop_event t = true /\
    Forall (converts e args darktable_cli images_dir) (numbered_from i items).
Proof.
  induction items as [|[d f] items IH]; intros i exported t st H.
  - simpl in H. inversion H; subst. rewrite Nat.add_0_r, app_nil_r.
    repeat split; constructor.
  - cbn [export_items] in H. apply bind_inv_ok in H.
    destruct H as (t1 & st1 & t2 & H1 & H2 & ->).
    rewrite export_one_eq in H1. cbv zeta in H1.
    destruct (returncode _ =? 0)%Z eqn:Hrc; [|discriminate].
    inversion H1; subst t1 st1. clear H1.
    apply IH in H2. destruct H2 as (-> & Hruns & Hev & Hconv).
    rewrite numbered_from_cons. cbn [map length].
    repeat split.
    + f_equal; [lia|]. rewrite <- app_assoc. reflexivity.
    + cbn [runs app]. rewrite runs_app, Hruns.
      unfold progress. destruct (S i mod 50 =? 0); reflexivity.
    + cbn [forallb app loop_event]. rewrite forallb_app, Hev.
      unfold progress. destruct (S i mod 50 =? 0); reflexivity.
    + constructor; [|assumption]. apply Z.eqb_eq. exact Hrc.
Qed.


(** The first failing conversion ends the loop with a fatal exit. *)
Lemma export_items_first_failure :
  forall items i exported before x after,
    numbered_from i items = before ++ x :: after ->
    Forall (converts e args darktable_cli images_dir) before -> ~ converts e args darktable_cli images_dir x ->
    exists t,
      export_items e args darktable_cli images_dir items (i, exported) =
        (t, Raise (SystemExit
                     (converter_failed_msg e (snd (snd x))
                        (stderr (run_process e ((export_cmd args darktable_cli images_dir) x)))))) /\
      runs t = map (export_cmd args darktable_cli images_dir) (before ++ [x]) /\
      forallb loop_event t = true.
Proof.
  induction items as [|[d f] items IH]; intros i exported before x after Hn Hb Hx.
  - destruct before; discriminate.
  - rewrite numbered_from_cons in Hn. cbn [export_items].
    rewrite export_one_eq. cbv zeta.
    destruct before as [|y before].
    + simpl in Hn. inversion Hn; subst x. clear Hn.
      unfold converts in Hx. apply Z.eqb_neq in Hx. rewrite Hx.
      eexists. split; [reflexivity|]. split; reflexivity.
    + simpl in Hn. inversion Hn; subst y. clear Hn.
      inversion Hb as [|? ? Hy Hb']; subst.
      unfold converts in Hy. rewrite (proj2 (Z.eqb_eq _ _) Hy).
      destruct (IH (S i) (exported ++ [(spec_out_path images_dir) (S i, (d, f))]) before x after)
        as (t & Ht & Hruns & Hev); try assumption.
      eexists. erewrite bind_ok by reflexivity. rewrite Ht.
      unfold trace, result. cbn [fst snd].
      split; [reflexivity|]. split.
      * cbn [runs app map]. rewrite runs_app, Hruns.
        unfold progress. destruct (S i mod 50 =? 0); reflexivity.
      * cbn [forallb app loop_event]. rewrite forallb_app, Hev.
        unfold progress. destruct (S i mod 50 =? 0); reflexivity.
Qed.
End ExportLoopFacts.

(** ** Counters in file names *)

Lemma py_cons : forall c s, py (String c s) = c :: py s.
Proof. reflexivity. Qed.

Lemma str_of_uint_digits :
  forall d, forallb isdigit (py (DecimalString.NilEmpty.string_of_uint d)) = true.
Proof.
  induction d; cbn [DecimalString.NilEmpty.string_of_uint];
    rewrite ?py_cons; cbn [forallb]; try rewrite IHd; reflexivity.
Qed.

Lemma str_of_uint_length :
  forall d, length (py (DecimalString.NilEmpty.string_of_uint d)) =
            Decimal.nb_digits d.
Proof.
  unfold py. induction d; simpl; congruence.
Qed.

Lemma forallb_repeat :
  forall (A : Type) (f : A -> bool) x n, f x = true -> forallb f (repeat x n) = true.
Proof. intros A f x n H. induction n; simpl; [|rewrite H, IHn]; reflexivity. Qed.

Lemma fmt06_digits : forall n, forallb isdigit (fmt06 n) = true.
Proof.
  intros n. unfold fmt06. rewrite forallb_app.
  rewrite forallb_repeat by reflexivity. apply str_of_uint_digits.
Qed.

Lemma fmt06_length : forall n, 6 <= length (fmt06 n).
Proof.
  intros n. unfold fmt06. rewrite length_app, repeat_length. lia.
Qed.

Lemma read_nat_str_of_nat : forall n, read_nat (str_of_nat n) = Some n.
Proof.
  intros n. unfold read_nat, str_of_nat, py.
  rewrite string_of_list_ascii_of_string, DecimalString.NilEmpty.usu.
  simpl. rewrite DecimalNat.Unsigned.of_to. reflexivity.
Qed.

Lemma read_nat_zero : forall s, read_nat ("0"%char :: s) = read_nat s.
Proof.
  intros s. unfold read_nat. cbn [string_of_list_ascii].
  cbn [DecimalString.NilEmpty.uint_of_string].
  destruct (DecimalString.NilEmpty.uint_of_string (string_of_list_ascii s));
    reflexivity.
Qed.

Lemma read_nat_fmt06 : forall n, read_nat (fmt06 n) = Some n.
Proof.
  intros n. unfold fmt06.
  induction (6 - length (str_of_nat n)) as [|k IH]; simpl.
  - apply read_nat_str_of_nat.
  - rewrite read_nat_zero. exact IH.
Qed.

Lemma fmt06_inj : forall n m, fmt06 n = fmt06 m -> n = m.
Proof.
  intros n m H. pose proof (read_nat_fmt06 n) as Hn.
  rewrite H, read_nat_fmt06 in Hn. congruence.
Qed.

Lemma of_uint_acc_lower :
  forall d acc, acc * 10 ^ Decimal.nb_digits d <= Nat.of_uint_acc d acc.
Proof.
  induction d; intros acc;
    cbn [Nat.of_uint_acc Decimal.nb_digits];
    try (rewrite Nat.pow_0_r; lia);
    rewrite Nat.tail_mul_spec;
    (eapply Nat.le_trans; [|apply IHd]);
    rewrite Nat.pow_succ_r'; nia.
Qed.

Lemma normal_uint_lower :
  forall d, Decimal.unorm d = d ->
            10 ^ (Decimal.nb_digits d - 1) <= Nat.of_uint d \/ Decimal.nb_digits d <= 1.
Proof.
  intros d Hn. destruct d as [|d|d|d|d|d|d|d|d|d|d];
    try (left; unfold Nat.of_uint; cbn [Nat.of_uint_acc Decimal.nb_digits];
         rewrite Nat.tail_mul_spec, Nat.sub_succ, Nat.sub_0_r;
         (eapply Nat.le_trans; [|apply of_uint_acc_lower]); nia).
  - right. simpl. lia.
  - rewrite DecimalFacts.unorm_D0 in Hn.
    destruct d as [|d|d|d|d|d|d|d|d|d|d]; try (right; simpl; lia);
      match type of Hn with
      | Decimal.unorm ?u = _ =>
          assert (Hu : u <> Decimal.Nil) by discriminate;
          pose proof (DecimalFacts.nb_digits_unorm u Hu) as Hle;
          rewrite Hn in Hle; cbn [Decimal.nb_digits] in Hle; lia
      end.
Qed.

(** Up to 999999 the counter takes exactly six characters. *)
Lemma fmt06_six : forall n, n < 10 ^ 6 -> length (fmt06 n) = 6.
Proof.
  intros n Hn. unfold fmt06. rewrite length_app, repeat_length.
  assert (H : length (str_of_nat n) <= 6); [|lia].
  unfold str_of_nat. rewrite str_of_uint_length.
  assert (Hnorm : Decimal.unorm (Nat.to_uint n) = Nat.to_uint n).
  { rewrite <- (DecimalNat.Unsigned.of_to n) at 2.
    symmetry. apply DecimalNat.Unsigned.to_of. }
  destruct (normal_uint_lower Hnorm) as [Hlow|Hsmall]; [|lia].
  rewrite DecimalNat.Unsigned.of_to in Hlow.
  destruct (Nat.le_gt_cases (Decimal.nb_digits (Nat.to_uint n)) 6) as [|Hbig];
    [assumption|].
  assert (10 ^ 6 <= 10 ^ (Decimal.nb_digits (Nat.to_uint n) - 1))
    by (apply Nat.pow_le_mono_r; lia).
  lia.
Qed.

(** ** File names are unique *)

(** A string is cut in one way only at its last separator. *)
Lemma split_last_sep :
  forall (A : Type) (x : A) a b d1 d2,
    a ++ x :: d1 = b ++ x :: d2 -> ~ In x d1 -> ~ In x d2 ->
    a = b /\ d1 = d2.
Proof.
  intros A x. induction a as [|y a IH]; intros [|z b] d1 d2 H H1 H2; simpl in H.
  - inversion H. auto.
  - inversion H; subst. exfalso. apply H1. apply in_or_app. right. left. reflexivity.
  - inversion H; subst. exfalso. apply H2. apply in_or_app. right. left. reflexivity.
  - inversion H; subst. destruct (IH b d1 d2) as [-> ->]; auto.
Qed.

Lemma digits_no_underscore :
  forall s, forallb isdigit s = true -> ~ In underscore s.
Proof.
  intros s H Hin. rewrite forallb_forall in H. specialize (H _ Hin). discriminate.
Qed.

Lemma spec_filename_inj :
  forall d d' k k', spec_filename d k = spec_filename d' k' -> k = k'.
Proof.
  unfold spec_filename. intros d d' k k' H.
  rewrite !app_assoc in H. apply app_inv_tail in H.
  rewrite <- !app_assoc in H.
  apply split_last_sep in H.
  - apply fmt06_inj. tauto.
  - apply digits_no_underscore, fmt06_digits.
  - apply digits_no_underscore, fmt06_digits.
Qed.

Lemma split_on_no_sep :
  forall sep s, ~ In sep s -> split_on sep s = [s].
Proof.
  intros sep s. induction s as [|c s IH]; intros H; simpl; [reflexivity|].
  destruct (Ascii.eqb c sep) eqn:E.
  - apply Ascii.eqb_eq in E. subst c. exfalso. apply H. left. reflexivity.
  - rewrite IH; [reflexivity|]. intros Hin. apply H. right. assumption.
Qed.

(** Appending one plain name adds one component. *)
Lemma joinpath_single :
  forall p s, ~ In slash s -> 2 <= length s -> joinpath p s = p ++ [s].
Proof.
  intros p s Hns Hlen. unfold joinpath.
  destruct s as [|c s]; [simpl in Hlen; lia|].
  destruct (Ascii.eqb c slash) eqn:E.
  - apply Ascii.eqb_eq in E. subst c. exfalso. apply Hns. left. reflexivity.
  - unfold parse_parts. rewrite (split_on_no_sep _ _ Hns). cbn [filter].
    assert (H1 : str_eqb (c :: s) [] = false).
    { destruct (str_eqb (c :: s) []) eqn:H; [|reflexivity].
      apply str_eqb_eq in H. discriminate. }
    assert (H2 : str_eqb (c :: s) [dot] = false).
    { destruct (str_eqb (c :: s) [dot]) eqn:H; [|reflexivity].
      apply str_eqb_eq in H. inversion H; subst. simpl in Hlen. lia. }
    rewrite H1, H2. reflexivity.
Qed.

Lemma allowed_not_slash : forall c, allowed c = true -> c <> slash.
Proof. intros c H ->. discriminate. Qed.

Lemma spec_filename_no_slash : forall d k, ~ In slash (spec_filename d k).
Proof.
  intros d k. unfold spec_filename. rewrite !in_app_iff.
  intros [H|[H|[H|H]]].
  - destruct (safe_name_sanitized (name d)) as (_ & _ & Hall & _).
    rewrite Forall_forall in Hall. apply (allowed_not_slash (Hall _ H)). reflexivity.
  - simpl in H. destruct H as [H|[]]. discriminate.
  - pose proof (fmt06_digits k) as Hd. rewrite forallb_forall in Hd.
    specialize (Hd _ H). discriminate.
  - simpl in H. repeat (destruct H as [H|H]; [discriminate|]). contradiction.
Qed.

Lemma spec_filename_length : forall d k, 2 <= length (spec_filename d k).
Proof.
  intros d k. unfold spec_filename. rewrite !length_app.
  pose proof (fmt06_length k). lia.
Qed.

Lemma spec_out_path_eq :
  forall images_dir x,
    spec_out_path images_dir x =
    images_dir ++ [spec_filename (fst (snd x)) (fst x)].
Proof.
  intros images_dir x. unfold spec_out_path.
  apply joinpath_single; [apply spec_filename_no_slash | apply spec_filename_length].
Qed.

Lemma spec_out_path_inj :
  forall images_dir x y,
    spec_out_path images_dir x = spec_out_path images_dir y -> fst x = fst y.
Proof.
  intros images_dir x y. rewrite !spec_out_path_eq. intros H.
  apply app_inv_head in H. inversion H as [H']. apply spec_filename_inj in H'.
  exact H'.
Qed.

Lemma numbered_from_counters :
  forall items i, map fst (numbered_from i items) = seq (S i) (length items).
Proof.
  induction items as [|x items IH]; intros i; [reflexivity|].
  rewrite numbered_from_cons. cbn [map fst length seq]. rewrite IH. reflexivity.
Qed.

Lemma numbered_from_length :
  forall items i, length (numbered_from i items) = length items.
Proof.
  intros items i. unfold numbered_from. rewrite length_combine, length_seq. lia.
Qed.

(** Distinct counters give distinct output paths. *)
Lemma spec_out_paths_NoDup :
  forall images_dir items i,
    NoDup (map (spec_out_path images_dir) (numbered_from i items)).
Proof.
  intros images_dir items i.
  assert (Hc : NoDup (map fst (numbered_from i items)))
    by (rewrite numbered_from_counters; apply seq_NoDup).
  induction (numbered_from i items) as [|x l IH]; simpl; [constructor|].
  simpl in Hc. inversion Hc as [|? ? Hnot Hnd]; subst.
  constructor; [|auto].
  intros Hin. apply in_map_iff in Hin. destruct Hin as (y & Heq & Hy).
  apply spec_out_path_inj in Heq. apply Hnot. rewrite <- Heq.
  apply in_map. assumption.
Qed.

(** ** Runs of [main] *)

Lemma kinds_app : forall t1 t2, kinds (t1 ++ t2) = kinds t1 ++ kinds t2.
Proof.
  induction t1 as [|ev t1 IH]; intros t2; simpl; [reflexivity|].
  destruct (kind_of ev); simpl; rewrite IH; reflexivity.
Qed.

Lemma kinds_eprints : forall lines, kinds (map EvEprint lines) = [].
Proof. induction lines; simpl; auto. Qed.

Lemma read_only_app :
  forall t1 t2, read_only (t1 ++ t2) = read_only t1 && read_only t2.
Proof. intros. apply forallb_app. Qed.

Lemma read_only_eprints : forall lines, read_only (map EvEprint lines) = true.
Proof. induction lines; simpl; auto. Qed.

Lemma is_dir_exists : forall fs p, is_dir fs p = true -> path_exists fs p = true.
Proof.
  unfold is_dir, path_exists. intros fs p. destruct (lookup fs p); [reflexivity | discriminate].
Qed.

Lemma main_not_a_directory :
  forall e args,
    let dataset_dir := resolve_arg e (args_path args) in
    path_exists (fs e) dataset_dir = false \/ is_dir (fs e) dataset_dir = false ->
    main e args = ([], Raise (SystemExit (not_a_directory_msg dataset_dir))).
Proof.
  intros e args dataset_dir H. unfold main. fold dataset_dir.
  destruct H as [H|H]; rewrite H; [|rewrite orb_true_r]; reflexivity.
Qed.

Lemma main_high_risk :
  forall e args,
    let dataset_dir := resolve_arg e (args_path args) in
    is_dir (fs e) dataset_dir = true ->
    is_dangerous_directory e dataset_dir = true ->
    main e args = ([], Raise (SystemExit (high_risk_msg dataset_dir))).
Proof.
  intros e args dataset_dir Hd Hr. unfold main. fold dataset_dir.
  rewrite (is_dir_exists _ _ Hd), Hd, Hr. reflexivity.
Qed.

Lemma main_missing_tool :
  forall e args,
    let dataset_dir := resolve_arg e (args_path args) in
    is_dir (fs e) dataset_dir = true ->
    is_dangerous_directory e dataset_dir = false ->
    which e DARKTABLE_CLI = None \/ which e DARKTABLE_CLI = Some [] ->
    main e args = ([EvWhich DARKTABLE_CLI], Raise (SystemExit (missing_tool_msg DARKTABLE_CLI))).
Proof.
  intros e args dataset_dir Hd Hr Hw. unfold main. fold dataset_dir.
  rewrite (is_dir_exists _ _ Hd), Hd, Hr. cbn [negb orb].
  unfold which_or_die.
  destruct Hw as [Hw|Hw]; rewrite Hw; reflexivity.
Qed.

Lemma main_no_inputs :
  forall e args c dc,
    let dataset_dir := resolve_arg e (args_path args) in
    is_dir (fs e) dataset_dir = true ->
    is_dangerous_directory e dataset_dir = false ->
    which e DARKTABLE_CLI = Some (c :: dc) ->
    iter_dngs (fs e) dataset_dir = [] ->
    main e args = ([EvWhich DARKTABLE_CLI; EvRglob dataset_dir],
                   Raise (SystemExit (no_inputs_msg dataset_dir))).
Proof.
  intros e args c dc dataset_dir Hd Hr Hw Hn. unfold main. fold dataset_dir.
  rewrite (is_dir_exists _ _ Hd), Hd, Hr. cbn [negb orb].
  unfold which_or_die. rewrite Hw, Hn. reflexivity.
Qed.

(** Past the checks and with inputs found, [main] announces the job and
    then either stops (dry run) or runs it. *)
Lemma main_with_inputs :
  forall e args c dc,
    let dataset_dir := resolve_arg e (args_path args) in
    let dngs := iter_dngs (fs e) dataset_dir in
    is_dir (fs e) dataset_dir = true ->
    is_dangerous_directory e dataset_dir = false ->
    which e DARKTABLE_CLI = Some (c :: dc) ->
    dngs <> [] ->
    let job := if args_dry_run args then eprint dry_run_line
               else run_job e args (c :: dc) dataset_dir dngs in
    main e args =
    (EvWhich DARKTABLE_CLI :: EvRglob dataset_dir ::
       map EvEprint (announce_lines e args dataset_dir dngs
                                    (group_by_parent_dir dngs)) ++ trace job,
     result job).
Proof.
  intros e args c dc dataset_dir dngs Hd Hr Hw Hn job. unfold main.
  fold dataset_dir. fold dngs.
  rewrite (is_dir_exists _ _ Hd), Hd, Hr. cbn [negb orb].
  unfold which_or_die. rewrite Hw.
  subst job. unfold run_job, dry_run_line.
  destruct dngs as [|d0 rest] eqn:E; [contradiction|].
  rewrite eprint_all_eq.
  destruct (args_dry_run args).
  - reflexivity.
  - unfold bind at 1 2 3 4. unfold tell at 1 2. unfold ret at 1. cbv beta iota.
    unfold trace, result.
    match goal with |- context [ bind ?m ?k ] => destruct (bind m k) as [tj rj] end.
    reflexivity.
Qed.

Lemma loop_trace_kinds :
  forall t, forallb loop_event t = true -> kinds t = repeat KExport (length (runs t)).
Proof.
  induction t as [|ev t IH]; simpl; intros H; [reflexivity|].
  apply andb_true_iff in H. destruct H as [Hev Ht].
  destruct ev; try discriminate; simpl; rewrite (IH Ht); reflexivity.
Qed.

Lemma with_suffix_cases :
  forall p sfx,
    (exists q, with_suffix p sfx = ([], Ok q)) \/
    (exists msg, with_suffix p sfx = ([], Raise (ValueError msg))).
Proof.
  intros p sfx. unfold with_suffix. destruct (name p).
  - right. eexists. reflexivity.
  - left. eexists. reflexivity.
Qed.

(** [zip_job] removes an earlier archive if there is one and then builds
    the new one; it can only fail on a path without a name. *)
Lemma zip_job_cases :
  forall e job_dir zip_path,
    (exists u z, kinds (trace (zip_job e job_dir zip_path)) = unlink_kinds u ++ [KArchive] /\
                 result (zip_job e job_dir zip_path) = Ok z) \/
    (exists u msg, kinds (trace (zip_job e job_dir zip_path)) = unlink_kinds u /\
                   result (zip_job e job_dir zip_path) = Raise (ValueError msg)).
Proof.
  intros e job_dir zip_path. unfold zip_job.
  set (first := if negb (str_eqb (lower (suffix zip_path)) (py ".zip"))
                then with_suffix zip_path (py ".zip") else ret zip_path).
  assert (Hfirst : (exists q, first = ([], Ok q)) \/
                   (exists msg, first = ([], Raise (ValueError msg)))).
  { unfold first. destruct (negb _); [apply with_suffix_cases|].
    left. eexists. reflexivity. }
  destruct Hfirst as [[q ->]|[msg ->]].
  - change (@nil Event, Ok q) with (ret q). rewrite bind_ret_l.
    destruct (with_suffix_cases q []) as [[base Hb]|[msg Hb]]; rewrite Hb.
    + left. exists (path_exists (fs e) q). eexists.
      unfold when. destruct (path_exists (fs e) q); split; reflexivity.
    + right. exists (path_exists (fs e) q), msg.
      unfold when. destruct (path_exists (fs e) q); split; reflexivity.
  - right. exists false, msg. split; reflexivity.
Qed.

(** The tail of a run: metadata, then manifest, then the archive if asked
    for. *)
Lemma finish_cases :
  forall e args dataset_dir dngs exported,
    let t := trace (finish e args dataset_dir dngs exported) in
    let r := result (finish e args dataset_dir dngs exported) in
    (args_zip args = false /\ kinds t = [KMetadata; KManifest] /\ r = Ok tt) \/
    (args_zip args = true /\
     exists u, kinds t = [KMetadata; KManifest] ++ unlink_kinds u ++ [KArchive] /\
               r = Ok tt) \/
    (args_zip args = true /\
     exists u msg, kinds t = [KMetadata; KManifest] ++ unlink_kinds u /\
                   r = Raise (ValueError msg)).
Proof.
  intros e args dataset_dir dngs exported. cbv zeta.
  unfold finish, write_job_json, write_manifest.
  destruct (args_zip args).
  - right.
    match goal with |- context [ zip_job ?a ?b ?c ] =>
      destruct (zip_job_cases a b c) as [(u & z & Hk & Hr)|(u & msg & Hk & Hr)];
      destruct (zip_job a b c) as [tz rz] eqn:Ez
    end; unfold trace, result in Hk, Hr; cbn [fst snd] in Hk, Hr; subst rz.
    + left. split; [reflexivity|]. exists u.
      cbv [bind tell ret eprint trace result fst snd].
      cbn [app kinds kind_of]. rewrite !kinds_app, Hk. cbn [kinds kind_of].
      rewrite !app_nil_r. split; reflexivity.
    + right. split; [reflexivity|]. exists u, msg.
      cbv [bind tell ret eprint trace result fst snd].
      cbn [app kinds kind_of]. rewrite Hk. split; reflexivity.
  - left. split; [reflexivity|]. split; reflexivity.
Qed.

(** Every way a run can go. *)
Lemma main_cases :
  forall e args,
    let dataset_dir := resolve_arg e (args_path args) in
    let dngs := iter_dngs (fs e) dataset_dir in
    ((path_exists (fs e) dataset_dir = false \/ is_dir (fs e) dataset_dir = false) /\
     main e args = ([], Raise (SystemExit (not_a_directory_msg dataset_dir)))) \/
    (is_dir (fs e) dataset_dir = true /\
     is_dangerous_directory e dataset_dir = true /\
     main e args = ([], Raise (SystemExit (high_risk_msg dataset_dir)))) \/
    (is_dir (fs e) dataset_dir = true /\
     is_dangerous_directory e dataset_dir = false /\
     (which e DARKTABLE_CLI = None \/ which e DARKTABLE_CLI = Some []) /\
     main e args = ([EvWhich DARKTABLE_CLI], Raise (SystemExit (missing_tool_msg DARKTABLE_CLI)))) \/
    (exists dc, preflight e args dc /\ dngs = [] /\
       main e args = ([EvWhich DARKTABLE_CLI; EvRglob dataset_dir],
                      Raise (SystemExit (no_inputs_msg dataset_dir)))) \/
    (exists dc, preflight e args dc /\ dngs <> [] /\
       main e args =
       (EvWhich DARKTABLE_CLI :: EvRglob dataset_dir ::
          map EvEprint (announce_lines e args dataset_dir dngs
                                       (group_by_parent_dir dngs))
          ++ trace (job_of e args dc),
        result (job_of e args dc))).
Proof.
  intros e args dataset_dir dngs.
  destruct (is_dir (fs e) dataset_dir) eqn:Hd.
  2: { left. split; [right; reflexivity|].
       apply main_not_a_directory. right. exact Hd. }
  destruct (is_dangerous_directory e dataset_dir) eqn:Hr.
  { right. left. repeat split. apply main_high_risk; assumption. }
  destruct (which e DARKTABLE_CLI) as [[|c dc]|] eqn:Hw.
  - right. right. left. repeat split; [right; reflexivity|].
    apply main_missing_tool; auto.
  - destruct dngs as [|d0 rest] eqn:Hn.
    + right. right. right. left. exists (c :: dc).
      split; [repeat split; auto; discriminate|]. split; [reflexivity|].
      eapply main_no_inputs; eauto.
    + right. right. right. right. exists (c :: dc).
      split; [repeat split; auto; discriminate|]. split; [discriminate|].
      rewrite <- Hn. unfold job_of. fold dataset_dir. fold dngs.
      apply main_with_inputs; auto. unfold dngs in Hn. fold dataset_dir. rewrite Hn.
      discriminate.
  - right. right. left. repeat split; [left; reflexivity|].
    apply main_missing_tool; auto.
Qed.

Section RunFacts.
Variable e : Env.
Variable args : Args.
Variable darktable_cli : str.

(** Whatever the converter does, the loop only starts converters and
    prints progress, and it ends normally or with the converter's fatal
    exit. *)
Lemma export_items_outcome :
  forall images_dir items st,
    let m := export_items e args darktable_cli images_dir items st in
    forallb loop_event (trace m) = true /\
    ((exists st', result m = Ok st') \/
     (exists f err, result m = Raise (SystemExit (converter_failed_msg e f err)))).
Proof.
  intros images_dir items. induction items as [|[d f] items IH]; intros [i exported].
  - split; [reflexivity|]. left. eexists. reflexivity.
  - cbv zeta. cbn [export_items]. rewrite export_one_eq. cbv zeta.
    destruct (returncode _ =? 0)%Z.
    + erewrite bind_ok by reflexivity.
      match goal with |- context [ export_items _ _ _ _ items ?s ] =>
        destruct (IH s) as [Hev Hres] end.
      unfold trace at 1. unfold result at 1 3. cbn [fst snd].
      split; [|exact Hres].
      rewrite forallb_app, Hev. cbn [forallb loop_event].
      unfold progress. destruct (S i mod 50 =? 0); reflexivity.
    + erewrite bind_raise by reflexivity. split; [reflexivity|].
      right. eexists. eexists. reflexivity.
Qed.

(** A run past the announcement makes the images directory, exports, and
    only after a complete loop goes on to [finish]. *)
Lemma run_job_cases :
  forall dataset_dir dngs,
    let images_dir := images_dir_of e args dataset_dir in
    let loop := export_loop e args darktable_cli images_dir (group_by_parent_dir dngs) in
    let job := run_job e args darktable_cli dataset_dir dngs in
    forallb loop_event (trace loop) = true /\
    ((exists f err,
        result loop = Raise (SystemExit (converter_failed_msg e f err)) /\
        job = (EvMkdir images_dir :: trace loop,
               Raise (SystemExit (converter_failed_msg e f err)))) \/
     (exists st,
        result loop = Ok st /\
        job = (EvMkdir images_dir :: trace loop ++
                 trace (finish e args dataset_dir dngs (snd st)),
               result (finish e args dataset_dir dngs (snd st))))).
Proof.
  intros dataset_dir dngs images_dir loop job.
  assert (Hl : loop = export_items e args darktable_cli images_dir
                        (export_order (group_by_parent_dir dngs)) (0, []))
    by apply export_groups_items.
  destruct (export_items_outcome images_dir
              (export_order (group_by_parent_dir dngs)) (0, [])) as [Hev Hres].
  cbv zeta in Hev, Hres. rewrite <- Hl in Hev, Hres.
  split; [exact Hev|].
  unfold job, run_job. fold images_dir. fold loop.
  destruct loop as [tl rl]. unfold trace, result in *. cbn [fst snd] in *.
  destruct Hres as [[st ->]|(f & err & ->)].
  - right. exists st. split; [reflexivity|].
    unfold bind, ensure_dir, tell.
    destruct (finish e args dataset_dir dngs (snd st)). reflexivity.
  - left. exists f, err. split; reflexivity.
Qed.
End RunFacts.

(** How a job can end. *)
Lemma job_of_result :
  forall e args dc,
    result (job_of e args dc) = Ok tt \/
    (exists f err, result (job_of e args dc) =
                   Raise (SystemExit (converter_failed_msg e f err))) \/
    (exists msg, result (job_of e args dc) = Raise (ValueError msg)).
Proof.
  intros e args dc. unfold job_of. destruct (args_dry_run args).
  - left. reflexivity.
  - set (ds := resolve_arg e (args_path args)).
    destruct (run_job_cases e args dc ds (iter_dngs (fs e) ds))
      as [_ [(f & err & Hr & ->)|(st & Hr & ->)]].
    + right. left. exists f, err. reflexivity.
    + unfold result at 1 2 3. cbn [snd].
      destruct (finish_cases e args ds (iter_dngs (fs e) ds) (snd st))
        as [(_ & _ & H)|[(_ & u & _ & H)|(_ & u & msg & _ & H)]]; cbv zeta in H.
      * left. exact H.
      * left. exact H.
      * right. right. exists msg. exact H.
Qed.

Lemma is_dangerous_directory_iff :
  forall e p,
    is_dangerous_directory e p = true <->
    In (resolve e p) dangerous \/ home e = Some (resolve e p).
Proof.
  intros e p. unfold is_dangerous_directory.
  destruct (existsb (path_eqb (resolve e p)) dangerous) eqn:E.
  - split; [|reflexivity]. intros _. left.
    apply existsb_exists in E. destruct E as (q & Hin & Heq).
    apply path_eqb_eq in Heq. subst q. exact Hin.
  - assert (Hnot : ~ In (resolve e p) dangerous).
    { intros Hin.
      assert (existsb (path_eqb (resolve e p)) dangerous = true); [|congruence].
      apply existsb_exists. exists (resolve e p). split; [exact Hin|].
      apply path_eqb_eq. reflexivity. }
    destruct (home e) as [h|].
    + destruct (path_eqb (resolve e p) h) eqn:Eh.
      * apply path_eqb_eq in Eh. subst h. tauto.
      * split; [discriminate|]. intros [H|H]; [contradiction|].
        inversion H; subst h.
        assert (path_eqb (resolve e p) (resolve e p) = true)
          by (apply path_eqb_eq; reflexivity).
        congruence.
    + split; [discriminate|]. intros [H|H]; [contradiction | discriminate].
Qed.

(** ** Fatal exits before the job starts *)

(** C7: when discovery finds nothing the run ends with the "no inputs"
    exit, having only looked up the tool and listed the tree: no directory
    and no artifact is made.  The arguments are arbitrary, so this holds
    in dry-run mode as well. *)
Theorem no_inputs_is_fatal :
  forall e args dc,
    let dataset_dir := resolve_arg e (args_path args) in
    preflight e args dc ->
    iter_dngs (fs e) dataset_dir = [] ->
    result (main e args) = Raise (SystemExit (no_inputs_msg dataset_dir)) /\
    trace (main e args) = [EvWhich DARKTABLE_CLI; EvRglob dataset_dir] /\
    read_only (trace (main e args)) = true /\
    kinds (trace (main e args)) = [].
Proof.
  intros e args dc dataset_dir (Hd & Hr & Hw & Hne) Hn.
  destruct dc as [|c dc]; [contradiction|].
  rewrite (main_no_inputs e args Hd Hr Hw Hn). repeat split.
Qed.

Lemma no_inputs_is_fatal_witness :
  result (main (demo_env empty_tree true never) (demo_args "/data" true true)) =
    Raise (SystemExit (py "No DNG files found under: /data")) /\
  read_only (trace (main (demo_env empty_tree true never)
                         (demo_args "/data" true true))) = true.
Proof.
  destruct (@no_inputs_is_fatal (demo_env empty_tree true never)
              (demo_args "/data" true true) (py "/usr/bin/darktable-cli"))
    as (Hres & _ & Hro & _).
  - repeat split; try reflexivity. discriminate.
  - reflexivity.
  - split; [exact Hres | exact Hro].
Defined.

(** C10: the directory checks come before the lookup of the converter.
    A path that is not a directory, or a directory on the deny-list, ends
    the run with its own message before anything is asked of PATH,
    whatever PATH holds; once both checks pass the lookup is the first
    thing the run does. *)
Theorem directory_checks_precede_tool_lookup :
  forall e args,
    let dataset_dir := resolve_arg e (args_path args) in
    (path_exists (fs e) dataset_dir = false \/ is_dir (fs e) dataset_dir = false ->
       main e args = ([], Raise (SystemExit (not_a_directory_msg dataset_dir)))) /\
    (is_dir (fs e) dataset_dir = true ->
     is_dangerous_directory e dataset_dir = true ->
       main e args = ([], Raise (SystemExit (high_risk_msg dataset_dir)))) /\
    (is_dir (fs e) dataset_dir = true ->
     is_dangerous_directory e dataset_dir = false ->
       exists rest, trace (main e args) = EvWhich DARKTABLE_CLI :: rest) /\
    not_a_directory_msg dataset_dir <> (missing_tool_msg DARKTABLE_CLI) /\
    high_risk_msg dataset_dir <> (missing_tool_msg DARKTABLE_CLI).
Proof.
  intros e args dataset_dir.
  split; [apply main_not_a_directory|].
  split; [apply main_high_risk|]. split.
  - intros Hd Hr.
    destruct (main_cases e args)
      as [(H & _)|[(_ & H & _)|[(_ & _ & _ & ->)|[(dc & _ & _ & ->)|(dc & _ & _ & ->)]]]];
      try (eexists; reflexivity).
    + fold dataset_dir in H. destruct H as [H|H]; [|congruence].
      rewrite (is_dir_exists _ _ Hd) in H. discriminate.
    + fold dataset_dir in H. congruence.
  - split; intros H; apply (f_equal first_char) in H; discriminate.
Qed.

Lemma directory_checks_precede_tool_lookup_witness :
  main (demo_env empty_tree false never) (demo_args "/nowhere" false false) =
    ([], Raise (SystemExit (py "Not a directory: /nowhere"))) /\
  main (demo_env empty_tree false never) (demo_args "/Users" false false) =
    ([], Raise (SystemExit (high_risk_msg [py "Users"]))) /\
  exists rest,
    trace (main (demo_env empty_tree false never) (demo_args "/data" false false)) =
    EvWhich DARKTABLE_CLI :: rest.
Proof.
  split; [|split].
  - apply (directory_checks_precede_tool_lookup
             (demo_env empty_tree false never) (demo_args "/nowhere" false false)).
    left. reflexivity.
  - apply (directory_checks_precede_tool_lookup
             (demo_env empty_tree false never) (demo_args "/Users" false false));
      reflexivity.
  - apply (directory_checks_precede_tool_lookup
             (demo_env empty_tree false never) (demo_args "/data" false false));
      reflexivity.
Defined.

Lemma dangerous_short : forall p, In p dangerous -> length p <= 1.
Proof.
  intros p H. unfold dangerous in H. simpl in H.
  repeat (destruct H as [<-|H]; [simpl; lia|]). contradiction.
Qed.

(** C8: the deny-list is exact.  [is_dangerous_directory] answers yes
    exactly for a resolved path on the fixed list or equal to the resolved
    home directory; for a dataset directory that exists, [main] ends with
    the high-risk exit exactly in that case, and then nothing at all has
    been looked up, listed or written; a directory below home is let
    through. *)
Theorem deny_list_is_exact :
  forall e args,
    let dataset_dir := resolve_arg e (args_path args) in
    (forall p, is_dangerous_directory e p = true <->
               In (resolve e p) dangerous \/ home e = Some (resolve e p)) /\
    (is_dir (fs e) dataset_dir = true ->
       (result (main e args) = Raise (SystemExit (high_risk_msg dataset_dir)) <->
        In (resolve e dataset_dir) dangerous \/
        home e = Some (resolve e dataset_dir))) /\
    (is_dir (fs e) dataset_dir = true ->
     is_dangerous_directory e dataset_dir = true ->
       trace (main e args) = []) /\
    (forall p h sub, home e = Some h -> h <> [] -> sub <> [] ->
                     resolve e p = h ++ sub ->
                     is_dangerous_directory e p = false).
Proof.
  intros e args. cbv zeta.
  split; [apply is_dangerous_directory_iff|]. split; [|split].
  - intros Hd. rewrite <- is_dangerous_directory_iff. split.
    + intros Hres.
      destruct (main_cases e args)
        as [(H & _)|[(_ & H & _)|[(_ & _ & _ & Hm)|[(dc & _ & _ & Hm)|(dc & _ & _ & Hm)]]]].
      * destruct H as [H|H]; [|congruence].
        rewrite (is_dir_exists _ _ Hd) in H. discriminate.
      * exact H.
      * rewrite Hm in Hres. exfalso.
        apply (f_equal (fun r => match r with
                                 | Raise (SystemExit m) => first_char m
                                 | _ => space
                                 end)) in Hres.
        discriminate Hres.
      * rewrite Hm in Hres. exfalso.
        apply (f_equal (fun r => match r with
                                 | Raise (SystemExit m) => first_char m
                                 | _ => space
                                 end)) in Hres.
        discriminate Hres.
      * rewrite Hm in Hres. unfold result at 1 in Hres. cbn [snd] in Hres.
        exfalso.
        destruct (job_of_result e args dc) as [H|[(f & err & H)|(msg & H)]];
          rewrite H in Hres; discriminate Hres.
    + intros Hr. rewrite (main_high_risk e args Hd Hr). reflexivity.
  - intros Hd Hr. rewrite (main_high_risk e args Hd Hr). reflexivity.
  - intros p h sub Hh Hne Hsub Hp.
    destruct (is_dangerous_directory e p) eqn:E; [|reflexivity].
    apply is_dangerous_directory_iff in E. rewrite Hp in E.
    destruct E as [E|E].
    + apply dangerous_short in E. rewrite length_app in E.
      destruct h; [contradiction|]. destruct sub; [contradiction|].
      simpl in E. lia.
    + rewrite Hh in E. inversion E as [E'].
      apply (f_equal (@length str)) in E'. rewrite length_app in E'.
      destruct sub; [contradiction|]. simpl in E'. lia.
Qed.

Lemma deny_list_is_exact_witness :
  (result (main (demo_env empty_tree true never) (demo_args "/Users/me" false false)) =
     Raise (SystemExit (high_risk_msg [py "Users"; py "me"]))) /\
  trace (main (demo_env empty_tree true never) (demo_args "/Users/me" false false)) = [] /\
  is_dangerous_directory (demo_env empty_tree true never)
    [py "Users"; py "me"; py "shots"] = false.
Proof.
  destruct (deny_list_is_exact (demo_env empty_tree true never)
              (demo_args "/Users/me" false false)) as (_ & Hiff & Htr & Hsub).
  split; [|split].
  - apply Hiff; [reflexivity|]. right. reflexivity.
  - apply Htr; reflexivity.
  - apply (Hsub _ [py "Users"; py "me"] [py "shots"]);
      try reflexivity; discriminate.
Defined.

(** ** Dry run *)

(** C9: a dry run writes nothing.  Whatever the world looks like, the
    trace of a run with the dry-run flag holds only the tool lookup, the
    listing of the tree and printed lines; when the checks pass and inputs
    are found, the run discovers, groups, prints the plan and returns. *)
Theorem dry_run_writes_nothing :
  forall e args,
    let dataset_dir := resolve_arg e (args_path args) in
    let dngs := iter_dngs (fs e) dataset_dir in
    args_dry_run args = true ->
    read_only (trace (main e args)) = true /\
    kinds (trace (main e args)) = [] /\
    (forall dc, preflight e args dc -> dngs <> [] ->
       main e args =
       (EvWhich DARKTABLE_CLI :: EvRglob dataset_dir ::
          map EvEprint (announce_lines e args dataset_dir dngs
                          (group_by_parent_dir dngs) ++ [dry_run_line]),
        Ok tt)).
Proof.
  intros e args. cbv zeta. intros Hdry.
  assert (Hjob : forall dc, job_of e args dc = ([EvEprint dry_run_line], Ok tt)).
  { intros dc. unfold job_of. rewrite Hdry. reflexivity. }
  destruct (main_cases e args)
    as [(H & Hm)|[(_ & H & Hm)|[(_ & _ & H & Hm)|[(dc & _ & H & Hm)|(dc & _ & _ & Hm)]]]].
  - rewrite Hm. split; [reflexivity|]. split; [reflexivity|].
    intros dc' (Hd' & _) _. exfalso.
    destruct H as [H|H]; [|congruence].
    rewrite (is_dir_exists _ _ Hd') in H. discriminate.
  - rewrite Hm. split; [reflexivity|]. split; [reflexivity|].
    intros dc' (_ & Hr' & _) _. congruence.
  - rewrite Hm. split; [reflexivity|]. split; [reflexivity|].
    intros dc' (_ & _ & Hw' & Hne') _. exfalso.
    destruct H as [H|H]; rewrite H in Hw'; inversion Hw'; subst dc'; contradiction.
  - rewrite Hm. split; [reflexivity|]. split; [reflexivity|].
    intros dc' _ Hn'. contradiction.
  - rewrite Hm, Hjob. unfold trace, result. cbn [fst snd].
    split; [|split].
    + unfold read_only. cbn [forallb mutates negb andb].
      rewrite forallb_app. fold (read_only (map EvEprint
        (announce_lines e args (resolve_arg e (args_path args))
           (iter_dngs (fs e) (resolve_arg e (args_path args)))
           (group_by_parent_dir (iter_dngs (fs e) (resolve_arg e (args_path args))))))).
      rewrite read_only_eprints. reflexivity.
    + cbn [kinds kind_of]. rewrite kinds_app, kinds_eprints. reflexivity.
    + intros dc' _ _. rewrite map_app. reflexivity.
Qed.

Lemma dry_run_writes_nothing_witness :
  read_only (trace (main (demo_env demo_tree true never)
                         (demo_args "/data" true true))) = true /\
  result (main (demo_env demo_tree true never) (demo_args "/data" true true)) = Ok tt.
Proof.
  destruct (@dry_run_writes_nothing (demo_env demo_tree true never)
              (demo_args "/data" true true) eq_refl) as (Hro & _ & Hrun).
  split; [exact Hro|].
  rewrite (Hrun (py "/usr/bin/darktable-cli")).
  - reflexivity.
  - repeat split; try reflexivity. discriminate.
  - discriminate.
Defined.

(** ** Complete runs *)

Lemma export_order_files :
  forall groups, map snd (export_order groups) = concat (map snd groups).
Proof.
  induction groups as [|[d files] groups IH]; [reflexivity|].
  unfold export_order in *. cbn [flat_map map concat fst snd].
  rewrite map_app, IH, map_map. cbn [snd]. rewrite map_id. reflexivity.
Qed.

Lemma export_order_length :
  forall dngs, length (export_order (group_by_parent_dir dngs)) = length dngs.
Proof.
  intros dngs. rewrite <- (length_map snd), export_order_files.
  apply Permutation_length, group_by_parent_dir_files.
Qed.

(** A run that is not a dry run and ends normally has passed the checks,
    exported every file with the next counter value, and finished. *)
Lemma main_success :
  forall e args tr,
    let dataset_dir := resolve_arg e (args_path args) in
    let dngs := iter_dngs (fs e) dataset_dir in
    let groups := group_by_parent_dir dngs in
    let images_dir := images_dir_of e args dataset_dir in
    let outs := map (spec_out_path images_dir) (numbered groups) in
    main e args = (tr, Ok tt) ->
    args_dry_run args = false ->
    exists dc tl,
      preflight e args dc /\
      export_loop e args dc images_dir groups = (tl, Ok (length dngs, outs)) /\
      runs tl = map (export_cmd args dc images_dir) (numbered groups) /\
      forallb loop_event tl = true /\
      Forall (converts e args dc images_dir) (numbered groups) /\
      tr = EvWhich DARKTABLE_CLI :: EvRglob dataset_dir ::
             map EvEprint (announce_lines e args dataset_dir dngs groups) ++
             EvMkdir images_dir :: tl ++
             trace (finish e args dataset_dir dngs outs) /\
      result (finish e args dataset_dir dngs outs) = Ok tt.
Proof.
  intros e args tr. cbv zeta. intros Hmain Hdry.
  destruct (main_cases e args)
    as [(_ & Hm)|[(_ & _ & Hm)|[(_ & _ & _ & Hm)|[(dc & _ & _ & Hm)|(dc & Hp & Hn & Hm)]]]];
    rewrite Hm in Hmain; try discriminate Hmain.
  unfold job_of in Hmain. rewrite Hdry in Hmain.
  set (ds := resolve_arg e (args_path args)) in *.
  set (dngs := iter_dngs (fs e) ds) in *.
  destruct (run_job_cases e args dc ds dngs)
    as [_ [(f & err & _ & Hj)|(st & Hr & Hj)]];
    rewrite Hj in Hmain; unfold trace at 1, result at 1 in Hmain;
    cbn [fst snd] in Hmain; [discriminate Hmain|].
  inversion Hmain as [[Htr Hres]]. clear Hmain.
  destruct (export_loop e args dc (images_dir_of e args ds)
              (group_by_parent_dir dngs)) as [tl rl] eqn:Hloop.
  unfold result in Hr. cbn [snd] in Hr. subst rl.
  pose proof Hloop as Hitems. unfold export_loop in Hitems.
  rewrite export_groups_items in Hitems.
  apply export_items_returns in Hitems.
  destruct Hitems as (Hst & Hruns & Hev & Hconv).
  cbn [plus app] in Hst. rewrite export_order_length in Hst. subst st.
  cbn [snd] in *. unfold trace at 1. cbn [fst].
  exists dc, tl. repeat split; auto; apply Hp.
Qed.

Lemma runs_of_kinds :
  forall t, ~ In KExport (kinds t) -> runs t = [].
Proof.
  induction t as [|ev t IH]; simpl; intros H; [reflexivity|].
  destruct ev; simpl in H; try (apply IH; tauto).
  exfalso. apply H. left. reflexivity.
Qed.

Lemma unlink_of_kinds :
  forall t p, ~ In KUnlink (kinds t) -> ~ In (EvUnlink p) t.
Proof.
  induction t as [|ev t IH]; intros p H Hin; simpl in *; [contradiction|].
  destruct Hin as [Hin|Hin].
  - subst ev. simpl in H. tauto.
  - destruct (kind_of ev); simpl in H; eapply IH; eauto.
Qed.

Lemma runs_eprints : forall lines, runs (map EvEprint lines) = [].
Proof. induction lines; simpl; auto. Qed.

Lemma runs_finish :
  forall e args dataset_dir dngs exported,
    runs (trace (finish e args dataset_dir dngs exported)) = [].
Proof.
  intros. apply runs_of_kinds.
  destruct (finish_cases e args dataset_dir dngs exported)
    as [(_ & H & _)|[(_ & u & H & _)|(_ & u & msg & H & _)]];
    cbv zeta in H; rewrite H; try destruct u; simpl; intuition discriminate.
Qed.

Lemma numbered_from_items :
  forall items i, map snd (numbered_from i items) = items.
Proof.
  induction items as [|x items IH]; intros i; [reflexivity|].
  rewrite numbered_from_cons. cbn [map snd]. rewrite IH. reflexivity.
Qed.

(** C1: in a run that completes, the counter is global.  The loop ends
    with [export_index] equal to the number of discovered files and with
    [exported] holding one path per file; the files are taken in
    group-then-file order and the k-th of them is converted under counter
    k, so the counters are 1..N; each output is
    [images_dir / (safe_name(group) + "_" + counter + ".jpg")] with the
    counter written on at least six digits (exactly six below one
    million); and no two outputs share a path. *)
Theorem export_counter_is_global :
  forall e args tr,
    let dataset_dir := resolve_arg e (args_path args) in
    let dngs := iter_dngs (fs e) dataset_dir in
    let groups := group_by_parent_dir dngs in
    let images_dir := images_dir_of e args dataset_dir in
    let plan := numbered groups in
    let outs := map (spec_out_path images_dir) plan in
    main e args = (tr, Ok tt) ->
    args_dry_run args = false ->
    exists dc tl,
      which e DARKTABLE_CLI = Some dc /\
      export_loop e args dc images_dir groups = (tl, Ok (length dngs, outs)) /\
      map fst plan = seq 1 (length dngs) /\
      map snd plan = export_order groups /\
      map snd (export_order groups) = concat (map snd groups) /\
      runs tr = map (export_cmd args dc images_dir) plan /\
      outs = map (fun x => images_dir ++ [spec_filename (fst (snd x)) (fst x)]) plan /\
      NoDup outs /\
      (forall k, 6 <= length (fmt06 k)) /\
      (forall k, k < 10 ^ 6 -> length (fmt06 k) = 6).
Proof.
  intros e args tr. cbv zeta. intros Hmain Hdry.
  destruct (main_success e args Hmain Hdry)
    as (dc & tl & Hp & Hloop & Hruns & _ & _ & Htr & _).
  exists dc, tl.
  split; [apply Hp|]. split; [exact Hloop|].
  split.
  { unfold numbered. rewrite numbered_from_counters, export_order_length. reflexivity. }
  split; [apply numbered_from_items|].
  split; [apply export_order_files|].
  split.
  { rewrite Htr. cbn [runs]. rewrite runs_app, runs_eprints. cbn [runs app].
    rewrite runs_app, runs_finish, app_nil_r. exact Hruns. }
  split.
  { apply map_ext. intros x. apply spec_out_path_eq. }
  split; [apply spec_out_paths_NoDup|].
  split; [apply fmt06_length | apply fmt06_six].
Qed.

Lemma export_counter_is_global_witness :
  exists dc tl,
    export_loop (demo_env demo_tree true never) (demo_args "/data" false false) dc
      [py "data"; py "_splatpack"; py "data_20260113_165501"; py "images"]
      (group_by_parent_dir (iter_dngs demo_tree [py "data"])) =
    (tl, Ok (3,
       [[py "data"; py "_splatpack"; py "data_20260113_165501"; py "images";
         py "take001_000001.jpg"];
        [py "data"; py "_splatpack"; py "data_20260113_165501"; py "images";
         py "take001_000002.jpg"];
        [py "data"; py "_splatpack"; py "data_20260113_165501"; py "images";
         py "take002_000003.jpg"]])).
Proof.
  destruct (@export_counter_is_global (demo_env demo_tree true never)
              (demo_args "/data" false false)
              (trace (main (demo_env demo_tree true never)
                           (demo_args "/data" false false)))
              eq_refl eq_refl)
    as (dc & tl & _ & Hloop & _).
  exists dc, tl. exact Hloop.
Defined.

(** ** Order of the job artifacts *)

(** C2, as the claim words it, fails: [main] calls [write_job_json] first
    and [write_manifest] second, so in the sample run the metadata record
    is the fifth artifact event and the manifest the sixth. *)
Lemma manifest_written_after_metadata :
  kinds (trace (main (demo_env demo_tree true never) (demo_args "/data" true false))) =
    [KMkdir; KExport; KExport; KExport; KMetadata; KManifest; KArchive] /\
  ~ manifest_before_metadata
      (trace (main (demo_env demo_tree true never) (demo_args "/data" true false))).
Proof.
  split; [reflexivity|].
  intros H. specialize (H 5 4 eq_refl eq_refl). lia.
Qed.

Lemma sorted_after_exports :
  forall n tail,
    Sorted kind_le (KExport :: tail) ->
    Sorted kind_le (KMkdir :: repeat KExport n ++ tail).
Proof.
  intros n tail H.
  assert (Hn : Sorted kind_le (repeat KExport n ++ tail) /\
               HdRel kind_le KExport (repeat KExport n ++ tail)).
  { induction n as [|n [IH1 IH2]]; simpl.
    - inversion H; subst. split; assumption.
    - split; constructor; auto. unfold kind_le. simpl. lia. }
  destruct Hn as [Hs Hh]. constructor; [exact Hs|].
  destruct (repeat KExport n ++ tail); constructor.
  inversion Hh; subst. unfold kind_le in *. simpl in *. lia.
Qed.

Lemma sorted_finish_kinds :
  forall u,
    Sorted kind_le (KExport :: [KMetadata; KManifest] ++ unlink_kinds u ++ [KArchive]) /\
    Sorted kind_le (KExport :: [KMetadata; KManifest] ++ unlink_kinds u) /\
    Sorted kind_le [KExport; KMetadata; KManifest].
Proof.
  intros u. destruct u; simpl; repeat split;
    repeat (constructor; try (unfold kind_le; simpl; lia)).
Qed.

(** C2, amended: in every run the artifact events come in the order
    images directory, image exports, metadata record, manifest, removal of
    an earlier archive, archive; and a run that completes does all of them:
    one export per discovered file, then [job.json], then [manifest.txt],
    and, only when the archive flag is set, the archive last. *)
Theorem artifacts_in_order :
  forall e args,
    let dataset_dir := resolve_arg e (args_path args) in
    let dngs := iter_dngs (fs e) dataset_dir in
    Sorted kind_le (kinds (trace (main e args))) /\
    (forall tr, main e args = (tr, Ok tt) -> args_dry_run args = false ->
       exists u,
         kinds tr = [KMkdir] ++ repeat KExport (length dngs) ++
                    [KMetadata; KManifest] ++
                    (if args_zip args then unlink_kinds u ++ [KArchive] else [])).
Proof.
  intros e args. cbv zeta. split.
  - destruct (main_cases e args)
      as [(_ & Hm)|[(_ & _ & Hm)|[(_ & _ & _ & Hm)|[(dc & _ & _ & Hm)|(dc & _ & _ & Hm)]]]];
      rewrite Hm; unfold trace at 1; cbn [fst]; try (simpl; constructor).
    cbn [kinds kind_of]. rewrite kinds_app, kinds_eprints. cbn [app].
    unfold job_of. destruct (args_dry_run args); [simpl; constructor|].
    set (ds := resolve_arg e (args_path args)).
    destruct (run_job_cases e args dc ds (iter_dngs (fs e) ds))
      as [Hev [(f & err & _ & ->)|(st & _ & ->)]];
      unfold trace at 1; cbn [fst kinds kind_of].
    + rewrite (loop_trace_kinds _ Hev).
      rewrite <- (app_nil_r (repeat _ _)). apply sorted_after_exports.
      repeat constructor.
    + rewrite kinds_app, (loop_trace_kinds _ Hev). apply sorted_after_exports.
      destruct (finish_cases e args ds (iter_dngs (fs e) ds) (snd st))
        as [(_ & H & _)|[(_ & u & H & _)|(_ & u & msg & H & _)]];
        cbv zeta in H; rewrite H; apply sorted_finish_kinds; exact false.
  - intros tr Hmain Hdry.
    destruct (main_success e args Hmain Hdry)
      as (dc & tl & _ & _ & Hruns & Hev & _ & Htr & Hfin).
    set (ds := resolve_arg e (args_path args)) in *.
    set (dngs := iter_dngs (fs e) ds) in *.
    assert (Hk : kinds tr = KMkdir :: repeat KExport (length dngs) ++
                   kinds (trace (finish e args ds dngs
                      (map (spec_out_path (images_dir_of e args ds))
                           (numbered (group_by_parent_dir dngs)))))).
    { rewrite Htr. cbn [kinds kind_of]. rewrite kinds_app, kinds_eprints.
      cbn [app kinds kind_of]. rewrite kinds_app, (loop_trace_kinds _ Hev).
      rewrite Hruns, length_map. unfold numbered.
      rewrite numbered_from_length, export_order_length. reflexivity. }
    rewrite Hk.
    destruct (finish_cases e args ds dngs
                (map (spec_out_path (images_dir_of e args ds))
                     (numbered (group_by_parent_dir dngs))))
      as [(Hz & H & _)|[(Hz & u & H & _)|(_ & u & msg & _ & H)]];
      cbv zeta in H.
    + exists false. rewrite H, Hz. reflexivity.
    + exists u. rewrite H, Hz. reflexivity.
    + rewrite H in Hfin. discriminate.
Qed.

Lemma artifacts_in_order_witness :
  exists u,
    kinds (trace (main (demo_env demo_tree true never) (demo_args "/data" true false))) =
    [KMkdir] ++ repeat KExport 3 ++ [KMetadata; KManifest] ++ unlink_kinds u ++ [KArchive].
Proof.
  destruct (artifacts_in_order (demo_env demo_tree true never)
              (demo_args "/data" true false)) as (_ & H).
  apply (H _ eq_refl eq_refl).
Defined.

(** ** Converter failure *)

(** C6: the first conversion that exits with a non-zero status ends the
    run.  The exit message names the input file and carries the decoded
    error output; the converter was started for the files before it and
    for the failing one, and for no other; apart from the images directory
    and those exports the run touched nothing: no manifest, no metadata,
    no archive, and nothing was removed. *)
Theorem converter_failure_is_fatal :
  forall e args dc before x after,
    let dataset_dir := resolve_arg e (args_path args) in
    let groups := group_by_parent_dir (iter_dngs (fs e) dataset_dir) in
    let images_dir := images_dir_of e args dataset_dir in
    preflight e args dc ->
    args_dry_run args = false ->
    numbered groups = before ++ x :: after ->
    Forall (converts e args dc images_dir) before ->
    ~ converts e args dc images_dir x ->
    result (main e args) =
      Raise (SystemExit
               (py "darktable-cli failed on: " ++ path_str (snd (snd x)) ++ nl ++
                match stderr (run_process e (export_cmd args dc images_dir x)) with
                | [] => []
                | err => decode_utf8 e err
                end)) /\
    runs (trace (main e args)) =
      map (export_cmd args dc images_dir) (before ++ [x]) /\
    kinds (trace (main e args)) = KMkdir :: repeat KExport (S (length before)) /\
    (forall p, ~ In (EvUnlink p) (trace (main e args))).
Proof.
  intros e args dc before x after. cbv zeta.
  intros (Hd & Hr & Hw & Hne) Hdry Hplan Hbefore Hx.
  set (ds := resolve_arg e (args_path args)) in *.
  set (dngs := iter_dngs (fs e) ds) in *.
  destruct dc as [|c dc]; [contradiction|].
  assert (Hn : dngs <> []).
  { intros E. rewrite E in Hplan. destruct before; discriminate. }
  pose proof (main_with_inputs e args Hd Hr Hw Hn) as Hm.
  cbv zeta in Hm. rewrite Hdry in Hm.
  destruct (@export_items_first_failure e args (c :: dc) (images_dir_of e args ds)
              (export_order (group_by_parent_dir dngs)) 0 [] before x after
              Hplan Hbefore Hx) as (tl & Hloop & Hruns & Hev).
  assert (Hjob : run_job e args (c :: dc) ds dngs =
                 (EvMkdir (images_dir_of e args ds) :: tl,
                  Raise (SystemExit
                    (converter_failed_msg e (snd (snd x))
                       (stderr (run_process e
                          (export_cmd args (c :: dc) (images_dir_of e args ds) x))))))).
  { unfold run_job, export_loop. rewrite export_groups_items, Hloop. reflexivity. }
  fold ds in Hm. fold dngs in Hm. rewrite Hjob in Hm.
  unfold trace, result in Hm. cbn [fst snd] in Hm. rewrite Hm.
  unfold trace, result. cbn [fst snd].
  assert (Hk : kinds (EvWhich DARKTABLE_CLI :: EvRglob ds ::
                 map EvEprint (announce_lines e args ds dngs (group_by_parent_dir dngs)) ++
                 EvMkdir (images_dir_of e args ds) :: tl) =
               KMkdir :: repeat KExport (S (length before))).
  { cbn [kinds kind_of]. rewrite kinds_app, kinds_eprints. cbn [app kinds kind_of].
    rewrite (loop_trace_kinds _ Hev), Hruns, length_map, length_app.
    cbn [length]. rewrite Nat.add_1_r. reflexivity. }
  split; [|split; [|split]].
  - unfold converter_failed_msg.
    destruct (stderr (run_process e
                (export_cmd args (c :: dc) (images_dir_of e args ds) x)));
      reflexivity.
  - cbn [runs]. rewrite runs_app, runs_eprints. cbn [app runs]. exact Hruns.
  - exact Hk.
  - intros p. apply unlink_of_kinds. rewrite Hk.
    intros [H|H]; [discriminate|]. apply repeat_spec in H. discriminate.
Qed.

Lemma converter_failure_is_fatal_witness :
  result (main (demo_env demo_tree true fails_on_b) (demo_args "/data" true false)) =
    Raise (SystemExit (py "darktable-cli failed on: /data/take001/b.DNG" ++ nl ++ py "bad")) /\
  kinds (trace (main (demo_env demo_tree true fails_on_b)
                     (demo_args "/data" true false))) =
    [KMkdir; KExport; KExport].
Proof.
  destruct (@converter_failure_is_fatal
              (demo_env demo_tree true fails_on_b) (demo_args "/data" true false)
              (py "/usr/bin/darktable-cli")
              [(1, ([py "data"; py "take001"], [py "data"; py "take001"; py "a.dng"]))]
              (2, ([py "data"; py "take001"], [py "data"; py "take001"; py "b.DNG"]))
              [(3, ([py "data"; py "take002"], [py "data"; py "take002"; py "c.dng"]))])
    as (Hres & _ & Hk & _).
  - repeat split; try reflexivity. discriminate.
  - reflexivity.
  - reflexivity.
  - repeat constructor.
  - unfold converts. vm_compute. discriminate.
  - split; [exact Hres | exact Hk].
Defined.


(** * Further properties of the code *)

(** ** Paths and their strings *)

Lemma split_on_nonnil : forall sep s, split_on sep s <> [].
Proof.
  intros sep s. destruct s as [|c s]; simpl; [discriminate|].
  destruct (Ascii.eqb c sep); [discriminate|].
  destruct (split_on sep s); discriminate.
Qed.

Lemma split_on_app_plain :
  forall sep c r,
    ~ In sep c ->
    split_on sep (c ++ r) =
    (c ++ hd [] (split_on sep r)) :: tl (split_on sep r).
Proof.
  intros sep c r. induction c as [|a c IH]; intros H.
  - simpl. pose proof (split_on_nonnil sep r).
    destruct (split_on sep r); [contradiction | reflexivity].
  - cbn [app split_on].
    destruct (Ascii.eqb a sep) eqn:E.
    + apply Ascii.eqb_eq in E. subst a. exfalso. apply H. left. reflexivity.
    + rewrite IH by (intros Hin; apply H; right; exact Hin). reflexivity.
Qed.

Lemma split_on_segments_plain :
  forall sep s, Forall (fun seg => ~ In sep seg) (split_on sep s).
Proof.
  intros sep s. induction s as [|c s IH]; simpl.
  - constructor; [tauto | constructor].
  - destruct (Ascii.eqb c sep) eqn:E.
    + constructor; [tauto | exact IH].
    + destruct (split_on sep s) as [|seg segs].
      * constructor; [|constructor]. intros [H|[]]. subst c.
        rewrite Ascii.eqb_refl in E. discriminate.
      * inversion IH as [|? ? Hseg Hsegs]; subst.
        constructor; [|exact Hsegs]. intros [H|H]; [|contradiction].
        subst c. rewrite Ascii.eqb_refl in E. discriminate.
Qed.

Lemma keep_wf_component :
  forall c, wf_component c -> negb (str_eqb c [] || str_eqb c [dot]) = true.
Proof.
  intros c (H1 & H2 & _).
  destruct (str_eqb c []) eqn:E1; [apply str_eqb_eq in E1; contradiction|].
  destruct (str_eqb c [dot]) eqn:E2; [apply str_eqb_eq in E2; contradiction|].
  reflexivity.
Qed.

(** Whatever the string, the components pathlib keeps are well formed. *)
Lemma parse_parts_wf : forall s, wf_path (parse_parts s).
Proof.
  intros s. unfold wf_path, parse_parts. apply Forall_forall. intros c Hin.
  apply filter_In in Hin. destruct Hin as [Hin Hk].
  pose proof (split_on_segments_plain slash s) as Hp.
  rewrite Forall_forall in Hp. specialize (Hp _ Hin).
  apply negb_true_iff, orb_false_iff in Hk. destruct Hk as [H1 H2].
  repeat split; try assumption.
  - intros ->. unfold str_eqb in H1.
    destruct (list_eq_dec ascii_dec [] []); [discriminate | congruence].
  - intros ->. unfold str_eqb in H2.
    destruct (list_eq_dec ascii_dec [dot] [dot]); [discriminate | congruence].
Qed.

Lemma joinpath_wf : forall p s, wf_path p -> wf_path (joinpath p s).
Proof.
  intros p s Hp. unfold joinpath. destruct s as [|c s]; [exact Hp|].
  destruct (Ascii.eqb c slash); [apply parse_parts_wf|].
  apply Forall_app. split; [exact Hp | apply parse_parts_wf].
Qed.

Lemma split_on_components :
  forall p, wf_path p ->
            split_on slash (flat_map (fun c => slash :: c) p) = [] :: p.
Proof.
  induction 1 as [|c p (Hne & Hdot & Hns) Hp IH]; [reflexivity|].
  cbn [flat_map app split_on]. rewrite Ascii.eqb_refl.
  rewrite (split_on_app_plain slash c _ Hns), IH. cbn [hd tl].
  rewrite app_nil_r. reflexivity.
Qed.

Lemma filter_keep_all :
  forall (A : Type) (f : A -> bool) l,
    Forall (fun x => f x = true) l -> filter f l = l.
Proof.
  induction 1 as [|x l Hx _ IH]; simpl; [reflexivity|]. rewrite Hx, IH. reflexivity.
Qed.

Lemma parse_parts_path_str : forall p, wf_path p -> parse_parts (path_str p) = p.
Proof.
  intros p Hp. unfold parse_parts, path_str. destruct p as [|c p]; [reflexivity|].
  rewrite (split_on_components Hp).
  set (l := c :: p) in *. cbn [filter].
  change (str_eqb [] [] || str_eqb [] [dot]) with true. cbn [negb].
  apply filter_keep_all. eapply Forall_impl; [|exact Hp].
  intros a Ha. apply keep_wf_component. exact Ha.
Qed.

(** X1: a well-formed path survives the trip through its string:
    [Path(str(p)) == p], joining an absolute string onto any path gives
    the path of that string, and two well-formed paths with the same
    string are the same path. *)
Theorem path_str_round_trip :
  forall p, wf_path p ->
    path_of_str (path_str p) = p /\
    (forall q, joinpath q (path_str p) = p) /\
    (forall q, wf_path q -> path_str p = path_str q -> p = q).
Proof.
  intros p Hp. split; [apply parse_parts_path_str, Hp|]. split.
  - intros q. unfold joinpath.
    destruct (path_str p) as [|c s] eqn:E.
    + destruct p; discriminate.
    + assert (Hc : c = slash) by (destruct p; inversion E; reflexivity).
      subst c. rewrite Ascii.eqb_refl, <- E. apply parse_parts_path_str, Hp.
  - intros q Hq Heq.
    rewrite <- (parse_parts_path_str Hp), Heq. apply parse_parts_path_str, Hq.
Qed.

Lemma path_str_round_trip_witness :
  path_of_str (path_str [py "data"; py "take001"; py "a.dng"]) =
  [py "data"; py "take001"; py "a.dng"].
Proof.
  destruct (@path_str_round_trip [py "data"; py "take001"; py "a.dng"])
    as (H & _); [|exact H].
  repeat constructor; try discriminate;
    simpl; intuition discriminate.
Defined.

(** ** Suffixes and the archive path *)





Lemma name_suffix_length : forall nm, length (name_suffix nm) <= length nm.
Proof.
  intros nm. unfold name_suffix. destruct (rfind dot nm) as [i|]; [|simpl; lia].
  destruct (_ && _); [|simpl; lia]. rewrite length_skipn. lia.
Qed.













(** ** The manifest and the metadata record *)

Lemma split_on_sep_cons :
  forall sep s, split_on sep (sep :: s) = [] :: split_on sep s.
Proof. intros. simpl. rewrite Ascii.eqb_refl. reflexivity. Qed.

Lemma split_on_join_lines :
  forall sep lines,
    lines <> [] -> Forall (fun l => ~ In sep l) lines ->
    split_on sep (join [sep] lines ++ [sep]) = lines ++ [[]].
Proof.
  intros sep lines Hne Hall. induction Hall as [|x rest Hx Hrest IH];
    [contradiction|].
  destruct rest as [|y rest].
  - cbn [join app]. rewrite (split_on_app_plain sep x [sep] Hx).
    rewrite split_on_sep_cons. cbn [hd tl split_on]. rewrite app_nil_r.
    reflexivity.
  - change (join [sep] (x :: y :: rest)) with (x ++ [sep] ++ join [sep] (y :: rest)).
    rewrite <- !app_assoc. cbn [app].
    rewrite (split_on_app_plain sep x _ Hx), split_on_sep_cons.
    cbn [hd tl]. rewrite app_nil_r, IH by discriminate. reflexivity.
Qed.

(** X3: the manifest can be read back.  [write_manifest] writes one file,
    [manifest.txt] in the job directory; when there is at least one path
    and no path string holds a newline, cutting the text at newlines gives
    the path strings in order followed by one empty piece (the text ends
    with a newline), so it has as many lines as there are paths; for an
    empty list the text is a lone newline. *)
Theorem write_manifest_round_trip :
  forall job_dir image_paths,
    let text := join nl (map path_str image_paths) ++ nl in
    write_manifest job_dir image_paths =
      ([EvWriteText (job_dir ++ [py "manifest.txt"]) text], Ok tt) /\
    (image_paths <> [] ->
     Forall (fun p => ~ In (chr 10) (path_str p)) image_paths ->
     split_on (chr 10) text = map path_str image_paths ++ [[]]) /\
    (image_paths = [] -> text = nl).
Proof.
  intros job_dir image_paths text. split; [|split].
  - unfold write_manifest, tell. fold text.
    rewrite joinpath_single; [reflexivity | | simpl; lia].
    simpl. intuition discriminate.
  - intros Hne Hall. unfold text, nl. apply split_on_join_lines.
    + destruct image_paths; [contradiction | discriminate].
    + apply Forall_forall. intros l Hl. apply in_map_iff in Hl.
      destruct Hl as (p & <- & Hp). rewrite Forall_forall in Hall. auto.
  - intros ->. reflexivity.
Qed.

Lemma write_manifest_round_trip_witness :
  split_on (chr 10)
    (join nl (map path_str [[py "j"; py "a_000001.jpg"]; [py "j"; py "a_000002.jpg"]])
     ++ nl) =
  [py "/j/a_000001.jpg"; py "/j/a_000002.jpg"; []].
Proof.
  destruct (write_manifest_round_trip [py "j"]
              [[py "j"; py "a_000001.jpg"]; [py "j"; py "a_000002.jpg"]])
    as (_ & H & _).
  apply H.
  - discriminate.
  - repeat constructor; vm_compute; intuition discriminate.
Defined.

Lemma finish_head :
  forall e args dataset_dir dngs exported,
    exists payload rest,
      trace (finish e args dataset_dir dngs exported) =
        EvWriteJson (joinpath (job_dir_of e args dataset_dir) (py "job.json")) payload ::
        EvWriteText (joinpath (job_dir_of e args dataset_dir) (py "manifest.txt"))
                    (join nl (map path_str exported) ++ nl) :: rest /\
      json_inputs_found payload = length dngs /\
      json_outputs_written payload = length exported /\
      json_dataset_dir payload = path_str dataset_dir /\
      json_job_dir payload = path_str (job_dir_of e args dataset_dir) /\
      json_images_dir payload = path_str (images_dir_of e args dataset_dir) /\
      json_darktable_style payload = args_style args /\
      json_jpg_quality payload = args_quality args /\
      json_max_long_edge payload = args_max_long_edge args /\
      json_created_at payload = strftime e.
Proof.
  intros e args dataset_dir dngs exported. unfold finish.
  erewrite bind_ok by reflexivity. unfold trace at 1. cbn [fst app].
  erewrite bind_ok by reflexivity. unfold trace at 1. cbn [fst app].
  eexists. eexists. split; [reflexivity|]. repeat split.
Qed.

(** X4: what a complete run records.  In a run that is not a dry run and
    returns normally, [job.json] is written to the job directory with
    [inputs_found] and [outputs_written] both equal to the number of
    discovered files, the directories, style, quality, size hint and
    timestamp of the run as given, and the manifest written next to it
    lists the output paths of the export plan, one per line, in export
    order. *)
Theorem complete_run_records :
  forall e args tr,
    let dataset_dir := resolve_arg e (args_path args) in
    let dngs := iter_dngs (fs e) dataset_dir in
    let job_dir := job_dir_of e args dataset_dir in
    let images_dir := images_dir_of e args dataset_dir in
    let outs := map (spec_out_path images_dir) (numbered (group_by_parent_dir dngs)) in
    main e args = (tr, Ok tt) ->
    args_dry_run args = false ->
    exists payload,
      In (EvWriteJson (job_dir ++ [py "job.json"]) payload) tr /\
      In (EvWriteText (job_dir ++ [py "manifest.txt"])
                      (join nl (map path_str outs) ++ nl)) tr /\
      json_inputs_found payload = length dngs /\
      json_outputs_written payload = length dngs /\
      length outs = length dngs /\
      json_dataset_dir payload = path_str dataset_dir /\
      json_job_dir payload = path_str job_dir /\
      json_images_dir payload = path_str images_dir /\
      json_darktable_style payload = args_style args /\
      json_jpg_quality payload = args_quality args /\
      json_max_long_edge payload = args_max_long_edge args /\
      json_created_at payload = strftime e.
Proof.
  intros e args tr. cbv zeta. intros Hmain Hdry.
  destruct (main_success e args Hmain Hdry)
    as (dc & tl & _ & _ & _ & _ & _ & Htr & _).
  set (ds := resolve_arg e (args_path args)) in *.
  set (dngs := iter_dngs (fs e) ds) in *.
  set (outs := map (spec_out_path (images_dir_of e args ds))
                   (numbered (group_by_parent_dir dngs))) in *.
  assert (Hlen : length outs = length dngs).
  { unfold outs, numbered. rewrite length_map, numbered_from_length.
    apply export_order_length. }
  destruct (finish_head e args ds dngs outs)
    as (payload & rest & Hfin & H1 & H2 & H3).
  rewrite !joinpath_single in Hfin
    by (simpl; try lia; intuition discriminate).
  exists payload. rewrite H1, H2, Hlen.
  assert (Hin : forall ev, In ev (trace (finish e args ds dngs outs)) -> In ev tr).
  { intros ev Hev. rewrite Htr. right. right. apply in_or_app. right.
    right. apply in_or_app. right. exact Hev. }
  split; [apply Hin; rewrite Hfin; left; reflexivity|].
  split; [apply Hin; rewrite Hfin; right; left; reflexivity|].
  repeat split; apply H3.
Qed.

Lemma complete_run_records_witness :
  exists payload,
    In (EvWriteJson [py "data"; py "_splatpack"; py "data_20260113_165501";
                     py "job.json"] payload)
       (trace (main (demo_env demo_tree true never) (demo_args "/data" false false))) /\
    json_inputs_found payload = 3 /\ json_outputs_written payload = 3.
Proof.
  destruct (@complete_run_records (demo_env demo_tree true never)
              (demo_args "/data" false false)
              (trace (main (demo_env demo_tree true never)
                           (demo_args "/data" false false)))
              eq_refl eq_refl)
    as (payload & Hj & _ & Hi & Ho & _).
  exists payload. split; [exact Hj|]. split; [exact Hi | exact Ho].
Defined.

(** ** How a run can end *)








(** ** Names that [safe_name] keeps *)

(** X7: the names [safe_name] leaves alone are exactly the clean ones: a
    string is returned unchanged if and only if it is not empty, has no
    whitespace at either end, holds only alphanumerics, underscores, dots
    and spaces, and has no two spaces in a row. *)
Theorem safe_name_fixed_points :
  forall s : str,
    safe_name s = s <->
    (s <> [] /\ head_ok s /\ head_ok (rev s) /\
     Forall (fun c => allowed c = true) s /\ has_double_space s = false).
Proof.
  intros s. split.
  - intros H. pose proof (safe_name_sanitized s) as Hs. rewrite H in Hs.
    destruct Hs as (H1 & (H2 & H3) & H4 & H5). auto.
  - intros (H1 & H2 & H3 & H4 & H5). apply safe_name_fixed.
    repeat split; assumption.
Qed.

Lemma safe_name_fixed_points_witness :
  safe_name (py "take 001.v2") = py "take 001.v2".
Proof.
  apply (proj2 (safe_name_fixed_points (py "take 001.v2"))).
  repeat split; try discriminate; try reflexivity. repeat constructor.
Defined.

(** ** The files of a group *)

Lemma in_dir_true : forall d f, in_dir d f = true <-> parent f = d.
Proof. intros. unfold in_dir. apply path_eqb_eq. Qed.

Lemma filter_snoc :
  forall (A : Type) (f : A -> bool) l x,
    filter f (l ++ [x]) = filter f l ++ (if f x then [x] else []).
Proof. intros. rewrite filter_app. simpl. destruct (f x); reflexivity. Qed.

Lemma setdefault_append_keeps_keys :
  forall k p g x, In x (map fst g) -> In x (map fst (setdefault_append k p g)).
Proof.
  intros k p g x H. rewrite setdefault_append_keys.
  destruct (existsb _ _); [exact H | apply in_or_app; left; exact H].
Qed.

Lemma setdefault_append_has_key :
  forall k p g, In k (map fst (setdefault_append k p g)).
Proof.
  intros k p g. rewrite setdefault_append_keys.
  destruct (existsb (fun k' => path_eqb k' k) (map fst g)) eqn:E.
  - apply existsb_exists in E. destruct E as (x & Hx & Heq).
    apply path_eqb_eq in Heq. subst x. exact Hx.
  - apply in_or_app. right. left. reflexivity.
Qed.

(** One turn of the grouping loop keeps every entry equal to the files
    seen so far that lie in its directory. *)
Lemma setdefault_append_filter :
  forall p done g,
    NoDup (map fst g) ->
    Forall (fun kv => snd kv = filter (in_dir (fst kv)) done) g ->
    (forall f, In f done -> parent f = parent p -> In (parent p) (map fst g)) ->
    Forall (fun kv => snd kv = filter (in_dir (fst kv)) (done ++ [p]))
           (setdefault_append (parent p) p g).
Proof.
  intros p done g. induction g as [|[k ps] g IH]; intros Hnd Hall Habs.
  - cbn [setdefault_append]. constructor; [|constructor]. cbn [fst snd].
    rewrite filter_snoc.
    replace (in_dir (parent p) p) with true
      by (symmetry; apply in_dir_true; reflexivity).
    replace (filter (in_dir (parent p)) done) with (@nil Path); [reflexivity|].
    symmetry. clear - Habs. induction done as [|f done IHd]; [reflexivity|].
    cbn [filter]. destruct (in_dir (parent p) f) eqn:E.
    + apply in_dir_true in E. destruct (Habs f (or_introl eq_refl) E).
    + apply IHd. intros f' Hf'. apply Habs. right. exact Hf'.
  - cbn [setdefault_append]. cbn [map fst] in Hnd.
    inversion Hnd as [|? ? Hnot Hnd']; subst.
    inversion Hall as [|? ? Hps Hrest]; subst. cbn [fst snd] in Hps.
    destruct (path_eqb k (parent p)) eqn:E.
    + apply path_eqb_eq in E. subst k. constructor.
      * cbn [fst snd]. rewrite filter_snoc, Hps.
        replace (in_dir (parent p) p) with true
          by (symmetry; apply in_dir_true; reflexivity).
        reflexivity.
      * apply Forall_forall. intros kv Hin. rewrite Forall_forall in Hrest.
        rewrite filter_snoc, (Hrest _ Hin).
        destruct (in_dir (fst kv) p) eqn:E; [|rewrite app_nil_r; reflexivity].
        apply in_dir_true in E. exfalso. apply Hnot. rewrite E.
        apply in_map. exact Hin.
    + constructor.
      * cbn [fst snd]. rewrite filter_snoc, Hps.
        replace (in_dir k p) with false; [rewrite app_nil_r; reflexivity|].
        symmetry. destruct (in_dir k p) eqn:E'; [|reflexivity].
        apply in_dir_true in E'. subst k.
        assert (path_eqb (parent p) (parent p) = true)
          by (apply path_eqb_eq; reflexivity).
        congruence.
      * apply IH; [assumption | assumption |].
        intros f Hf Hpar. destruct (Habs f Hf Hpar) as [Hk|Hk]; [|exact Hk].
        cbn [fst] in Hk. subst k.
        assert (path_eqb (parent p) (parent p) = true)
          by (apply path_eqb_eq; reflexivity).
        congruence.
Qed.

Lemma collect_filter :
  forall dngs done g,
    NoDup (map fst g) ->
    Forall (fun kv => snd kv = filter (in_dir (fst kv)) done) g ->
    (forall f, In f done -> In (parent f) (map fst g)) ->
    Forall (fun kv => snd kv = filter (in_dir (fst kv)) (done ++ dngs))
           (collect dngs g) /\
    (forall f, In f (done ++ dngs) -> In (parent f) (map fst (collect dngs g))).
Proof.
  unfold collect. induction dngs as [|p dngs IH]; intros done g Hnd Hall Hkeys.
  - rewrite app_nil_r. split; assumption.
  - cbn [fold_left].
    replace (done ++ p :: dngs) with ((done ++ [p]) ++ dngs)
      by (rewrite <- app_assoc; reflexivity).
    apply IH.
    + apply setdefault_append_NoDup. exact Hnd.
    + apply setdefault_append_filter; try assumption.
      intros f Hf Hpar. rewrite <- Hpar. apply Hkeys. exact Hf.
    + intros f Hf. apply in_app_or in Hf. destruct Hf as [Hf|[<-|[]]].
      * apply setdefault_append_keeps_keys, Hkeys, Hf.
      * apply setdefault_append_has_key.
Qed.

Lemma StronglySorted_filter :
  forall (A : Type) (R : A -> A -> Prop) (f : A -> bool) l,
    StronglySorted R l -> StronglySorted R (filter f l).
Proof.
  intros A R f l H. induction H as [|x l Hs IH Hall]; simpl; [constructor|].
  destruct (f x); [|exact IH]. constructor; [exact IH|].
  apply Forall_forall. intros y Hy. apply filter_In in Hy.
  rewrite Forall_forall in Hall. apply Hall. tauto.
Qed.

Lemma list_sort_sorted_id :
  forall l, Sorted path_le l -> list_sort path_lt l = l.
Proof.
  intros l H. apply (sorted_perm_unique path_lt_strict_total).
  - apply list_sort_Sorted. apply (st_asym path_lt_strict_total).
  - exact H.
  - apply list_sort_perm.
Qed.

(** The group directories are the parents of the input files. *)
Lemma group_keys_are_parents :
  forall dngs d,
    In d (map fst (group_by_parent_dir dngs)) <->
    exists f, In f dngs /\ parent f = d.
Proof.
  intros dngs d.
  destruct (@collect_filter dngs [] []) as (Hfil & Hkeys);
    [constructor | constructor | intros f [] |]. cbn [app] in Hfil, Hkeys.
  set (raw := collect dngs []) in *.
  assert (Hk : In d (map fst (group_by_parent_dir dngs)) <-> In d (map fst raw)).
  { unfold group_by_parent_dir. fold (collect dngs []). fold raw.
    rewrite map_map. cbn [fst].
    split; apply Permutation_in, Permutation_map;
      [apply list_sort_perm | apply Permutation_sym, list_sort_perm]. }
  rewrite Hk. split.
  - intros Hin. apply in_map_iff in Hin. destruct Hin as ([k ps] & <- & Hin).
    destruct (collect_invariant dngs (g := [])) as (_ & Hok & _);
      [constructor | constructor |].
    fold (collect dngs []) in Hok. fold raw in Hok.
    rewrite Forall_forall in Hok, Hfil.
    destruct (Hok _ Hin) as [Hne _]. pose proof (Hfil _ Hin) as Hps.
    cbn [fst snd] in *. destruct ps as [|f ps]; [contradiction|].
    assert (Hf : In f (filter (in_dir k) dngs)) by (rewrite <- Hps; left; reflexivity).
    apply filter_In in Hf. destruct Hf as [Hf Hd]. apply in_dir_true in Hd.
    exists f. split; assumption.
  - intros (f & Hf & <-). apply Hkeys. exact Hf.
Qed.

(** X8: what a group holds.  There is a group for a directory exactly
    when some input file has it as parent, and its list is the input
    files with that parent, sorted; when the input is already sorted, as
    [iter_dngs] delivers it, the list is those files in their input
    order. *)
Theorem group_files_are_filtered_input :
  forall dngs : list Path,
    let groups := group_by_parent_dir dngs in
    (forall d, In d (map fst groups) <-> exists f, In f dngs /\ parent f = d) /\
    (forall d files, In (d, files) groups ->
       files = list_sort path_lt (filter (in_dir d) dngs)) /\
    (Sorted path_le dngs ->
     forall d files, In (d, files) groups -> files = filter (in_dir d) dngs).
Proof.
  intros dngs groups.
  destruct (@collect_filter dngs [] []) as (Hfil & Hkeys);
    [constructor | constructor | intros f [] |]. cbn [app] in Hfil, Hkeys.
  set (raw := collect dngs []) in *.
  set (key := fun kv : Path * list Path => path_str (fst kv)).
  set (grouped := sorted_by_key str_lt key raw).
  assert (Hg : groups = map (fun kv => (fst kv, list_sort path_lt (snd kv))) grouped)
    by reflexivity.
  assert (Hpg : Permutation grouped raw) by apply list_sort_perm.
  assert (Hchar : forall d files, In (d, files) groups ->
            files = list_sort path_lt (filter (in_dir d) dngs)).
  { intros d files Hin. rewrite Hg in Hin. apply in_map_iff in Hin.
    destruct Hin as ([k ps] & Heq & Hin). cbn [fst snd] in Heq.
    inversion Heq; subst.
    assert (Hraw : In (d, ps) raw) by (eapply Permutation_in; eauto).
    rewrite Forall_forall in Hfil. pose proof (Hfil _ Hraw) as Hps.
    cbn [fst snd] in Hps. rewrite <- Hps. reflexivity. }
  split; [|split].
  - intros d. apply group_keys_are_parents.
  - exact Hchar.
  - intros Hs d files Hin. rewrite (Hchar d files Hin).
    apply list_sort_sorted_id. apply StronglySorted_Sorted, StronglySorted_filter.
    apply (Sorted_le_strongly path_lt_strict_total). exact Hs.
Qed.

Lemma group_files_are_filtered_input_witness :
  [[py "data"; py "take001"; py "a.dng"]; [py "data"; py "take001"; py "b.DNG"]] =
  filter (in_dir [py "data"; py "take001"]) (iter_dngs demo_tree [py "data"]).
Proof.
  destruct (group_files_are_filtered_input (iter_dngs demo_tree [py "data"]))
    as (_ & _ & H).
  apply H.
  - vm_compute. repeat constructor.
  - left. reflexivity.
Defined.

(** ** Discovery stays below the root *)

Section NodeInduction.
Variable P : node -> Prop.
Hypothesis P_file : P File.
Hypothesis P_dir :
  forall entries, Forall (fun en => P (snd en)) entries -> P (Dir entries).

(** Induction on a tree, with the hypothesis for every entry of a
    directory. *)
Fixpoint node_tree_ind (n : node) : P n :=
  match n with
  | File => P_file
  | Dir entries =>
      P_dir
        ((fix go (l : list (str * node)) : Forall (fun en => P (snd en)) l :=
            match l with
            | [] => Forall_nil _
            | en :: rest => Forall_cons en (node_tree_ind (snd en)) (go rest)
            end) entries)
  end.
End NodeInduction.

Lemma walk_below :
  forall n prefix p,
    In p (walk prefix n) -> exists rel, rel <> [] /\ p = prefix ++ rel.
Proof.
  intros n. induction n as [|entries IH] using node_tree_ind; intros prefix p H.
  - contradiction.
  - cbn [walk] in H. apply in_flat_map in H. destruct H as (en & Hen & Hp).
    rewrite Forall_forall in IH. destruct Hp as [<-|Hp].
    + exists [fst en]. split; [discriminate | reflexivity].
    + destruct (IH en Hen _ _ Hp) as (rel & Hrel & ->).
      exists (fst en :: rel). split; [discriminate|].
      rewrite <- app_assoc. reflexivity.
Qed.

(** X9: discovery stays strictly below the root.  Every path returned by
    [iter_dngs] is the root followed by at least one more component, so
    the root itself is never returned and every group directory is the
    root or lies below it; and a root that does not exist or is a regular
    file gives the empty list. *)
Theorem iter_dngs_below_root :
  forall fs root,
    (forall p, In p (iter_dngs fs root) ->
       exists rel, rel <> [] /\ p = root ++ rel) /\
    (forall d, In d (map fst (group_by_parent_dir (iter_dngs fs root))) ->
       exists rel, d = root ++ rel) /\
    (is_dir fs root = false -> iter_dngs fs root = []).
Proof.
  intros fs root.
  assert (Hbelow : forall p, In p (iter_dngs fs root) ->
            exists rel, rel <> [] /\ p = root ++ rel).
  { intros p Hin. unfold iter_dngs, select_dngs in Hin.
    eapply Permutation_in in Hin; [|apply list_sort_perm].
    apply filter_In in Hin. destruct Hin as [Hin _].
    unfold rglob in Hin. destruct (lookup fs root); [|contradiction].
    eapply walk_below. exact Hin. }
  split; [exact Hbelow|]. split.
  - intros d Hd.
    destruct (group_keys_are_parents (iter_dngs fs root) d)
      as [Hk _]. destruct (Hk Hd) as (f & Hf & <-).
    destruct (Hbelow f Hf) as (rel & Hrel & ->).
    exists (removelast rel). unfold parent.
    rewrite (app_removelast_last [] Hrel) at 1.
    rewrite app_assoc. apply removelast_last.
  - intros Hd. unfold iter_dngs, rglob, is_dir in *.
    destruct (lookup fs root) as [[|entries]|]; try discriminate; reflexivity.
Qed.

Lemma iter_dngs_below_root_witness :
  iter_dngs demo_tree [py "data"; py "take001"; py "a.dng"] = [].
Proof.
  destruct (iter_dngs_below_root demo_tree [py "data"; py "take001"; py "a.dng"])
    as (_ & _ & H).
  apply H. reflexivity.
Defined.


(** ** When the order of paths is the order of their strings *)

Lemma str_compare_app_plain :
  forall c d P Q,
    plain_dir c -> plain_dir d ->
    str_compare (c ++ slash :: P) (d ++ slash :: Q) =
    match str_compare c d with
    | Eq => str_compare (slash :: P) (slash :: Q)
    | r => r
    end.
Proof.
  unfold plain_dir.
  induction c as [|x c IH]; intros [|y d] P Q Hc Hd.
  - reflexivity.
  - cbn [forallb] in Hd. apply andb_true_iff in Hd. destruct Hd as [Hy _].
    unfold above_slash in Hy. apply Nat.ltb_lt in Hy.
    cbn [app]. unfold str_compare. cbn [lex_compare].
    unfold char_compare at 1.
    replace (ord slash ?= ord y) with Lt; [reflexivity|].
    symmetry. apply Nat.compare_lt_iff. exact Hy.
  - cbn [forallb] in Hc. apply andb_true_iff in Hc. destruct Hc as [Hx _].
    unfold above_slash in Hx. apply Nat.ltb_lt in Hx.
    cbn [app]. unfold str_compare. cbn [lex_compare].
    unfold char_compare at 1.
    replace (ord x ?= ord slash) with Gt; [reflexivity|].
    symmetry. apply Nat.compare_gt_iff. exact Hx.
  - cbn [forallb] in Hc, Hd.
    apply andb_true_iff in Hc. apply andb_true_iff in Hd.
    destruct Hc as [_ Hc]. destruct Hd as [_ Hd].
    cbn [app]. unfold str_compare in *. cbn [lex_compare].
    destruct (char_compare x y); try reflexivity.
    apply IH; assumption.
Qed.

Lemma flat_compare :
  forall p q,
    length p = length q ->
    Forall plain_dir (parent p) -> Forall plain_dir (parent q) ->
    str_compare (flat p) (flat q) = path_compare p q.
Proof.
  unfold parent. induction p as [|c p IH]; intros [|d q] Hlen Hp Hq;
    try discriminate; [reflexivity|].
  cbn [flat flat_map]. fold (flat p). fold (flat q).
  unfold path_compare. cbn [lex_compare]. fold path_compare.
  change (str_compare ((slash :: c) ++ flat p) ((slash :: d) ++ flat q))
    with (str_compare (c ++ flat p) (d ++ flat q)).
  destruct p as [|c2 p]; destruct q as [|d2 q]; try discriminate.
  - cbn [flat flat_map]. rewrite !app_nil_r.
    change (lex_compare str_compare [] []) with Eq.
    destruct (str_compare c d); reflexivity.
  - cbn [removelast] in Hp, Hq.
    inversion Hp as [|? ? Hc Hp']; subst. inversion Hq as [|? ? Hd Hq']; subst.
    assert (Htail : str_compare (flat (c2 :: p)) (flat (d2 :: q)) =
                    path_compare (c2 :: p) (d2 :: q)).
    { apply IH; [simpl in *; lia | exact Hp' | exact Hq']. }
    change (flat (c2 :: p)) with (slash :: c2 ++ flat p) in *.
    change (flat (d2 :: q)) with (slash :: d2 ++ flat q) in *.
    rewrite (str_compare_app_plain _ _ Hc Hd), Htail. reflexivity.
Qed.

Lemma Sorted_on_members :
  forall (A : Type) (R R' : A -> A -> Prop) l,
    (forall x y, In x l -> In y l -> R x y -> R' x y) ->
    Sorted R l -> Sorted R' l.
Proof.
  intros A R R' l H Hs. induction Hs as [|x l Hs IH Hhd]; [constructor|].
  constructor.
  - apply IH. intros a b Ha Hb. apply H; right; assumption.
  - destruct Hhd as [|y l' Hxy]; constructor.
    apply H; [left; reflexivity | right; left; reflexivity | exact Hxy].
Qed.

(** X10: when Path order and string order agree.  For two paths with the
    same number of components whose directory names hold only characters
    that sort after the slash, comparing the paths gives the same answer
    as comparing their strings; so when all discovered files lie at one
    depth below such directories, the result of [iter_dngs] is also sorted
    by full path string. *)
Theorem path_order_is_string_order_at_one_depth :
  (forall p q,
     length p = length q ->
     Forall plain_dir (parent p) -> Forall plain_dir (parent q) ->
     path_lt p q = str_lt (path_str p) (path_str q)) /\
  (forall fs root depth,
     (forall p, In p (iter_dngs fs root) ->
                length p = depth /\ Forall plain_dir (parent p)) ->
     Sorted by_path_str (iter_dngs fs root)).
Proof.
  assert (Hagree : forall p q,
     length p = length q ->
     Forall plain_dir (parent p) -> Forall plain_dir (parent q) ->
     path_lt p q = str_lt (path_str p) (path_str q)).
  { intros p q Hlen Hp Hq. unfold path_lt, str_lt. f_equal.
    rewrite <- (flat_compare p q Hlen Hp Hq).
    destruct p as [|c p]; destruct q as [|d q]; try discriminate; reflexivity. }
  split; [exact Hagree|].
  intros fs root depth Hall.
  apply Sorted_on_members with (R := path_le).
  - intros p q Hp Hq Hle. unfold by_path_str, str_le, path_le, le_of in *.
    destruct (Hall p Hp) as [Lp Dp]. destruct (Hall q Hq) as [Lq Dq].
    rewrite <- (Hagree q p); [exact Hle | congruence | exact Dq | exact Dp].
  - apply list_sort_Sorted. apply (st_asym path_lt_strict_total).
Qed.

Lemma path_order_is_string_order_at_one_depth_witness :
  Sorted by_path_str (iter_dngs demo_tree [py "data"]).
Proof.
  destruct path_order_is_string_order_at_one_depth as (_ & H).
  apply (H demo_tree [py "data"] 3).
  intros p Hp. vm_compute in Hp.
  destruct Hp as [<-|[<-|[<-|[]]]]; split; try reflexivity;
    repeat constructor.
Defined.

(** ** The missing converter *)

(** X11: a missing converter stops the run before discovery.  With a
    dataset directory that passed its checks, if the PATH lookup finds
    nothing (or an empty path), [main] exits with the message that names
    the tool, having done nothing but the lookup: the tree is not listed
    and nothing is written, dry run or not. *)
Theorem missing_tool_is_fatal :
  forall e args,
    let dataset_dir := resolve_arg e (args_path args) in
    is_dir (fs e) dataset_dir = true ->
    is_dangerous_directory e dataset_dir = false ->
    which e DARKTABLE_CLI = None \/ which e DARKTABLE_CLI = Some [] ->
    main e args =
      ([EvWhich DARKTABLE_CLI], Raise (SystemExit (missing_tool_msg DARKTABLE_CLI))) /\
    (exists rest, missing_tool_msg DARKTABLE_CLI =
                  py "Missing required tool: darktable-cli" ++ rest) /\
    ~ In (EvRglob dataset_dir) (trace (main e args)) /\
    read_only (trace (main e args)) = true.
Proof.
  intros e args dataset_dir Hd Hr Hw.
  pose proof (main_missing_tool e args Hd Hr Hw) as Hm. cbv zeta in Hm.
  rewrite Hm. split; [reflexivity|]. split; [|split].
  - eexists. reflexivity.
  - intros [H|[]]. discriminate.
  - reflexivity.
Qed.

Lemma missing_tool_is_fatal_witness :
  main (demo_env demo_tree false never) (demo_args "/data" false true) =
  ([EvWhich DARKTABLE_CLI], Raise (SystemExit (missing_tool_msg DARKTABLE_CLI))).
Proof.
  destruct (@missing_tool_is_fatal (demo_env demo_tree false never)
              (demo_args "/data" false true)) as (H & _).
  - reflexivity.
  - reflexivity.
  - left. reflexivity.
  - exact H.
Defined.

(** ** Where the job lands *)





(** ** Discovery is exact *)












(** ** Progress lines *)

Lemma eprints_app : forall t1 t2, eprints (t1 ++ t2) = eprints t1 ++ eprints t2.
Proof.
  induction t1 as [|ev t1 IH]; intros t2; simpl; [reflexivity|].
  destruct ev; simpl; rewrite ?IH; reflexivity.
Qed.

Lemma div50_succ :
  forall i, S i / 50 = i / 50 + (if S i mod 50 =? 0 then 1 else 0).
Proof.
  intros i.
  pose proof (Nat.div_mod_eq (S i) 50) as H1.
  pose proof (Nat.div_mod_eq i 50) as H2.
  pose proof (Nat.mod_upper_bound i 50) as H3.
  pose proof (Nat.mod_upper_bound (S i) 50) as H4.
  destruct (S i mod 50 =? 0) eqn:E.
  - apply Nat.eqb_eq in E. lia.
  - apply Nat.eqb_neq in E. lia.
Qed.

Section ProgressFacts.
Variable e : Env.
Variable args : Args.
Variable darktable_cli : str.
Variable images_dir : Path.

(** The trace of a loop that returns: one conversion per file, each
    followed by its progress line when the counter is a multiple of 50. *)
Lemma export_items_trace :
  forall items i exported t st,
    export_items e args darktable_cli images_dir items (i, exported) = (t, Ok st) ->
    t = flat_map (fun x => EvRun (export_cmd args darktable_cli images_dir x)
                             :: progress (fst x))
                 (numbered_from i items).
Proof.
  induction items as [|[d f] items IH]; intros i exported t st H.
  - simpl in H. inversion H; subst. reflexivity.
  - cbn [export_items] in H. apply bind_inv_ok in H.
    destruct H as (t1 & st1 & t2 & H1 & H2 & ->).
    rewrite export_one_eq in H1. cbv zeta in H1.
    destruct (returncode _ =? 0)%Z; [|discriminate].
    inversion H1; subst t1 st1. clear H1.
    apply IH in H2. subst t2.
    rewrite numbered_from_cons. cbn [flat_map fst app]. reflexivity.
Qed.

Lemma progress_lines_from :
  forall items i,
    eprints (flat_map (fun x => EvRun (export_cmd args darktable_cli images_dir x)
                                  :: progress (fst x))
                      (numbered_from i items)) =
    map (fun k => progress_line (50 * k))
        (seq (S (i / 50)) ((i + length items) / 50 - i / 50)).
Proof.
  induction items as [|x items IH]; intros i.
  - cbn [length]. rewrite Nat.add_0_r, Nat.sub_diag. reflexivity.
  - rewrite numbered_from_cons. cbn [flat_map fst eprints length].
    rewrite eprints_app, IH.
    replace (i + S (length items)) with (S i + length items) by lia.
    pose proof (div50_succ i) as Hs.
    assert (Hle : S i / 50 <= (S i + length items) / 50)
      by (apply Nat.Div0.div_le_mono; lia).
    unfold progress. destruct (S i mod 50 =? 0) eqn:E.
    + assert (Hk : S i = 50 * (S i / 50)).
      { apply Nat.eqb_eq in E. pose proof (Nat.div_mod_eq (S i) 50). lia. }
      replace ((S i + length items) / 50 - i / 50)
        with (S ((S i + length items) / 50 - S i / 50)) by lia.
      cbn [seq map eprints app]. unfold progress_line at 2.
      replace (S (i / 50)) with (S i / 50) by lia.
      rewrite <- Hk. reflexivity.
    + cbn [eprints app]. replace (S i / 50) with (i / 50) by lia. reflexivity.
Qed.
End ProgressFacts.

(** X14: progress lines.  An export loop that returns has started one
    conversion per file of the plan, in order, and printed a progress
    line right after each conversion whose counter is a multiple of 50
    and nothing else: with N files the lines are [Exported 50 images...],
    [Exported 100 images...] up to the last multiple of 50 not above N, so
    none at all for fewer than 50 files. *)
Theorem progress_every_fiftieth :
  forall e args dc images_dir groups t st,
    export_loop e args dc images_dir groups = (t, Ok st) ->
    t = flat_map (fun x => EvRun (export_cmd args dc images_dir x) :: progress (fst x))
                 (numbered groups) /\
    eprints t = map (fun k => progress_line (50 * k))
                    (seq 1 (length (export_order groups) / 50)) /\
    (length (export_order groups) < 50 -> eprints t = []).
Proof.
  intros e args dc images_dir groups t st H.
  unfold export_loop in H. rewrite export_groups_items in H.
  apply export_items_trace in H.
  assert (Hlines : eprints t = map (fun k => progress_line (50 * k))
                                   (seq 1 (length (export_order groups) / 50))).
  { rewrite H. unfold numbered. rewrite progress_lines_from.
    change (0 / 50) with 0. rewrite Nat.sub_0_r. reflexivity. }
  split; [exact H|]. split; [exact Hlines|].
  intros Hlt. rewrite Hlines, Nat.div_small by exact Hlt. reflexivity.
Qed.

Lemma progress_every_fiftieth_witness :
  eprints (trace (export_loop (demo_env burst_tree true never)
                    (demo_args "/burst" false false)
                    (py "/usr/bin/darktable-cli") [py "out"]
                    (group_by_parent_dir (iter_dngs burst_tree [py "burst"])))) =
  [py "Exported 50 images..."].
Proof.
  set (m := export_loop _ _ _ _ _).
  assert (Hm : exists st, m = (trace m, Ok st))
    by (eexists; vm_compute; reflexivity).
  destruct Hm as [st Hst].
  destruct (progress_every_fiftieth _ _ _ _ _ Hst) as (_ & Hlines & _).
  rewrite Hlines. vm_compute. reflexivity.
Defined.
